(** * MassImageCompressor: a shallow embedding of MediaProcessor.py

    The module [MediaProcessor] of the repository selects a random subset of
    images under a byte budget (an estimate-then-verify packing), compresses
    them and writes them into a flat output directory.  This file embeds the
    parts of that code the specification talks about:

    - [choose_random_subset_by_size]: size estimation and the randomized
      greedy selector (MediaProcessor.py, lines 58-122);
    - [process_images]: the two packing passes over actual encoded sizes and
      the writer with its collision-free naming (lines 124-242).

    Modelling choices.
    - Python floats are modelled by exact rationals [Q]; [int(x)] on a float
      truncates toward zero, which is [py_int].  The compression factor is
      also given with IEEE 754 double rounding ([compression_factor_f64]).
    - [random.shuffle] is an oracle [shuffle : list item -> list item]; the
      theorems quantify over it (assuming it permutes where needed).
    - [os.path.getsize] and [compress_image_to_bytes] are oracles returning
      [option]: [None] is the exception the code catches.
    - The output directory is a finite map from paths to file contents;
      [os.path.exists p] is [is_Some (fs !! p)].
    - Console output (progress lines) is not modelled. *)

From Stdlib Require Import QArith Qminmax Qround Qabs Qpower ZArith Ascii Sorted Lqa.
From stdpp Require Import base list gmap strings pretty.

Open Scope Z_scope.

(** ** Python numeric helpers *)

(** [int(x)] for a float [x]: truncation toward zero. *)
Definition py_int (x : Q) : Z := Z.quot (Qnum x) (Zpos (Qden x)).

(** An item of the selector: [(path, size)] ([Tuple[str, int]]). *)
Abbreviation item := (string * Z)%type.

(** [random.shuffle], as an oracle on lists of items. *)
Abbreviation Shuffle := (list item -> list item).

(** ** Size estimation (lines 76-79, 101) *)

(** [compression_factor = max(0.01, float(quality) / 300.0)] *)
Definition compression_factor (quality : Q) : Q :=
  Qmax (1 # 100) (quality / inject_Z 300).

(** [max_bytes = int(max_dir_size_gb * 1024 ** 3)] *)
Definition max_bytes_of (max_dir_size_gb : Q) : Z :=
  py_int (max_dir_size_gb * inject_Z (1024 ^ 3)).

(** [estimated_size = int(orig_size * compression_factor)] *)
Definition estimate (factor : Q) (orig_size : Z) : Z :=
  py_int (inject_Z orig_size * factor).

(** ** Scanning (lines 81-89): files whose size lookup raises are dropped. *)
Fixpoint scan_sizes (getsize : string -> option Z) (paths : list string)
  : list item :=
  match paths with
  | [] => []
  | path :: rest =>
      match getsize path with
      | Some size => (path, size) :: scan_sizes getsize rest
      | None => scan_sizes getsize rest
      end
  end.

(** ** The selector loop (lines 96-112)

    Returns [(chosen_paths, remaining_paths, estimated_total)]; the
    [break] of line 112 returns at once. *)
Fixpoint select_loop (factor : Q) (max_bytes : Z) (image_sizes : list item)
    (chosen_paths remaining_paths : list item) (estimated_total : Z)
  : list item * list item * Z :=
  match image_sizes with
  | [] => (chosen_paths, remaining_paths, estimated_total)
  | (path, orig_size) :: rest =>
      let estimated_size := estimate factor orig_size in
      if max_bytes <? estimated_total + estimated_size then
        select_loop factor max_bytes rest chosen_paths
          (remaining_paths ++ [(path, estimated_size)]) estimated_total
      else
        let chosen' := chosen_paths ++ [(path, estimated_size)] in
        let total' := estimated_total + estimated_size in
        if max_bytes <=? total' then (chosen', remaining_paths, total')
        else select_loop factor max_bytes rest chosen' remaining_paths total'
  end.

(** [any(p == path for p, _ in l)] *)
Definition has_path (path : string) (l : list item) : bool :=
  existsb (fun '(p, _) => String.eqb p path) l.

(** The post-pass of lines 114-117: every path of [image_sizes] that is in
    neither list is appended to [remaining_paths]. *)
Fixpoint add_unprocessed (factor : Q) (image_sizes : list item)
    (chosen_paths remaining_paths : list item) : list item :=
  match image_sizes with
  | [] => remaining_paths
  | (path, orig_size) :: rest =>
      let remaining' :=
        if negb (has_path path chosen_paths) && negb (has_path path remaining_paths)
        then remaining_paths ++ [(path, estimate factor orig_size)]
        else remaining_paths in
      add_unprocessed factor rest chosen_paths remaining'
  end.

(** [MediaProcessor.choose_random_subset_by_size] (lines 58-122), given the
    result of [gather_all_images] and the size oracle. *)
Definition choose_random_subset_by_size (shuffle : Shuffle)
    (all_images : list string) (getsize : string -> option Z)
    (max_dir_size_gb quality : Q) : list item * list item :=
  match all_images with
  | [] => ([], [])
  | _ :: _ =>
      let factor := compression_factor quality in
      let max_bytes := max_bytes_of max_dir_size_gb in
      let image_sizes := shuffle (scan_sizes getsize all_images) in
      let '(chosen_paths, remaining_paths, _) :=
        select_loop factor max_bytes image_sizes [] [] 0 in
      (chosen_paths, add_unprocessed factor image_sizes chosen_paths remaining_paths)
  end.

(** Sum of the second components of a list of items. *)
Definition sum_sizes (l : list item) : Z := fold_right (fun x acc => snd x + acc) 0 l.

(** ** The packing passes of [process_images] (lines 141-198) *)

(** Encoded bytes ([bytes]). *)
Abbreviation bytes := (list Byte.byte).

(** The state threaded through both passes: the running [actual_total],
    the list [chosen_actual] of committed [(path, data)] pairs, and the
    paths handed to [compress_image_to_bytes], in call order. *)
Record pack_state := mk_pack_state {
  actual_total : Z;
  chosen_actual : list (string * bytes);
  codec_calls : list string;
}.

Definition init_pack_state : pack_state := mk_pack_state 0 [] [].

(** A call [self.compress_image_to_bytes(path, quality)] is recorded. *)
Definition log_call (path : string) (st : pack_state) : pack_state :=
  mk_pack_state (actual_total st) (chosen_actual st) (codec_calls st ++ [path]).

(** [chosen_actual.append((path, data)); actual_total += size] *)
Definition commit (path : string) (data : bytes) (st : pack_state) : pack_state :=
  mk_pack_state (actual_total st + Z.of_nat (length data))
    (chosen_actual st ++ [(path, data)]) (codec_calls st).

Section Packing.

(** [compress_image_to_bytes(path, quality)] at the run's fixed quality;
    [None] is a raised exception (unreadable or corrupt image). *)
Variable encode : string -> option bytes.
Variable max_bytes : Z.

(** One pass over a list of [(path, est_size)]: the loop of lines 149-174
    (Pass A) and, with the same body, the loop of lines 180-198 (Pass B). *)
Fixpoint pack_pass (paths : list item) (st : pack_state) : pack_state :=
  match paths with
  | [] => st
  | (path, est_size) :: rest =>
      if max_bytes <=? actual_total st then st
      else if max_bytes <? actual_total st + est_size then pack_pass rest st
      else
        let st1 := log_call path st in
        match encode path with
        | None => pack_pass rest st1
        | Some data =>
            let size := Z.of_nat (length data) in
            if max_bytes <? actual_total st1 + size then pack_pass rest st1
            else
              let st2 := commit path data st1 in
              if max_bytes <=? actual_total st2 then st2
              else pack_pass rest st2
        end
  end.

(** Pass A over [chosen_paths], then Pass B over the reshuffled
    [remaining_paths] when budget is left and [remaining_paths] is not
    empty (lines 144-198). *)
Definition pack_both (shuffle : Shuffle) (chosen_paths remaining_paths : list item)
  : pack_state :=
  let stA := pack_pass chosen_paths init_pack_state in
  if (actual_total stA <? max_bytes) && negb (bool_decide (remaining_paths = []))
  then pack_pass (shuffle remaining_paths) stA
  else stA.

End Packing.

(** ** Path and string helpers of the writer (POSIX [os.path], [os.sep = '/']) *)

Definition slash : ascii := "/"%char.
Definition dot : ascii := "."%char.

(** [p.rfind(c)] split: [(p[:i+1], p[i+1:])] for the last [c] at index [i],
    or [("", p)] when [c] does not occur. *)
Definition rsplit_after (c : ascii) (p : string) : string * string :=
  let fix go (rev_chars tail : list ascii) : list ascii * list ascii :=
    match rev_chars with
    | [] => ([], tail)
    | x :: xs => if Ascii.eqb x c then (rev (x :: xs), tail) else go xs (x :: tail)
    end in
  let '(h, t) := go (rev (String.list_ascii_of_string p)) [] in
  (String.string_of_list_ascii h, String.string_of_list_ascii t).

(** [head.rstrip('/')] *)
Definition rstrip_slash (s : string) : string :=
  let fix go (rev_chars : list ascii) : list ascii :=
    match rev_chars with
    | x :: xs => if Ascii.eqb x slash then go xs else rev_chars
    | [] => []
    end in
  String.string_of_list_ascii (rev (go (rev (String.list_ascii_of_string s)))).

(** [os.path.dirname] *)
Definition dirname (p : string) : string :=
  let head := fst (rsplit_after slash p) in
  if bool_decide (rstrip_slash head = "")%string then head else rstrip_slash head.

(** [os.path.basename] *)
Definition basename (p : string) : string := snd (rsplit_after slash p).

(** [os.path.join(a, b)] for two components. *)
Definition path_join (a b : string) : string :=
  if String.prefix "/" b then b
  else if bool_decide (a = "")%string || bool_decide (snd (rsplit_after slash a) = "")%string
  then (a +:+ b)%string
  else (a +:+ "/" +:+ b)%string.

(** [os.path.relpath(d, source_dir)] on the directories [os.walk(source_dir)]
    yields: [source_dir] itself (giving ["."]) or [source_dir/<sub>] (giving
    [<sub>]); the code never applies it to other directories. *)
Definition relpath_under (source_dir d : string) : string :=
  if bool_decide (d = source_dir) then "."%string
  else
    let pre := (source_dir +:+ "/")%string in
    if String.prefix pre d then String.substring (String.length pre)
                                  (String.length d - String.length pre) d
    else d.

(** [str.lower] on ASCII letters. *)
Definition lower (s : string) : string :=
  String.string_of_list_ascii
    (map (fun c => let n := Ascii.nat_of_ascii c in
                   if (65 <=? n)%nat && (n <=? 90)%nat then Ascii.ascii_of_nat (n + 32) else c)
       (String.list_ascii_of_string s)).

(** [s.replace(os.sep, '_')] *)
Definition replace_sep (s : string) : string :=
  String.string_of_list_ascii
    (map (fun c => if Ascii.eqb c slash then "_"%char else c) (String.list_ascii_of_string s)).

(** [os.path.splitext] (posixpath): split at the last dot of the last
    component, unless that component is made of leading dots only. *)
Definition splitext (p : string) : string * string :=
  let '(before_last_sep, last) := rsplit_after slash p in
  let '(h, t) := rsplit_after dot last in
  match String.list_ascii_of_string h with
  | [] => (p, ""%string)
  | hs =>
      if forallb (fun c => Ascii.eqb c dot) hs then (p, ""%string)
      else
        let stem := String.string_of_list_ascii (removelast hs) in
        ((before_last_sep +:+ stem)%string, ("." +:+ t)%string)
  end.

(** [f"{n:0{pad}d}"] for [n >= 0]. *)
Definition zero_pad (pad : nat) (n : Z) : string :=
  let s := pretty n in
  (String.string_of_list_ascii (repeat "0"%char (pad - String.length s)) +:+ s)%string.

(** ** Ordering of the output (lines 202-209) *)

(** [rel_folder_key]: [(folder_rel.lower(), basename(path).lower())]. *)
Definition rel_folder_rel (source_dir path : string) : string :=
  let folder_rel := relpath_under source_dir (dirname path) in
  if bool_decide (folder_rel = ".")%string then ""%string else folder_rel.

Definition rel_folder_key (source_dir : string) (it : string * bytes) : string * string :=
  (lower (rel_folder_rel source_dir (fst it)), lower (basename (fst it))).

(** Python's tuple and string [<] (code point order). *)
Definition key_lt (k1 k2 : string * string) : bool :=
  match String.compare (fst k1) (fst k2) with
  | Lt => true
  | Gt => false
  | Eq => bool_decide (String.compare (snd k1) (snd k2) = Lt)
  end.

(** [sorted(l, key=key)]: a stable sort, here by insertion. *)
Fixpoint insert_by_key {A} (key : A -> string * string) (x : A) (l : list A) : list A :=
  match l with
  | [] => [x]
  | y :: ys => if key_lt (key x) (key y) then x :: y :: ys else y :: insert_by_key key x ys
  end.

Definition sorted_by_key {A} (key : A -> string * string) (l : list A) : list A :=
  fold_left (fun acc x => insert_by_key key x acc) l [].

(** ** Writing (lines 211-242) *)

(** [f"{base_name}_{suffix}{ext}"] *)
Definition suffixed (base_name : string) (suffix : Z) (ext : string) : string :=
  (base_name +:+ "_" +:+ pretty suffix +:+ ext)%string.

(** The [while] loop of lines 225-227: the first [suffix] whose candidate
    path does not exist.  [fuel] bounds the iterations; [size fs] of them
    always suffice (see [find_suffix_free]), so the bound is never hit. *)
Fixpoint find_suffix (fs : gmap string bytes) (dir base_name ext : string)
    (suffix : Z) (fuel : nat) : Z :=
  match fuel with
  | O => suffix
  | S fuel' =>
      if bool_decide (is_Some (fs !! path_join dir (suffixed base_name suffix ext)))
      then find_suffix fs dir base_name ext (suffix + 1) fuel'
      else suffix
  end.

(** Lines 221-228: the path an item named [out_name] is written to. *)
Definition resolve_out_path (fs : gmap string bytes) (compressed_dir out_name : string)
  : string :=
  let out_path := path_join compressed_dir out_name in
  if bool_decide (is_Some (fs !! out_path)) then
    let '(base_name, ext) := splitext out_name in
    path_join compressed_dir
      (suffixed base_name (find_suffix fs compressed_dir base_name ext 1 (size fs)) ext)
  else out_path.

(** Lines 221-235 for one item: [open(out_path, 'wb').write(data)], where
    [write_ok out_path = false] models a raised write error (nothing is
    written and the item is skipped). *)
Definition write_file (write_ok : string -> bool) (compressed_dir out_name : string)
    (data : bytes) (fs : gmap string bytes) : option string * gmap string bytes :=
  let out_path := resolve_out_path fs compressed_dir out_name in
  if write_ok out_path then (Some out_path, <[out_path := data]> fs) else (None, fs).

(** [out_name = f"{count:0{pad}d}_{folder_name}_{base}"] *)
Definition out_name_of (source_dir : string) (pad : nat) (count : Z) (orig_path : string)
  : string :=
  let folder_rel := rel_folder_rel source_dir orig_path in
  let folder_name := if bool_decide (folder_rel = "")%string then "root"%string
                     else replace_sep folder_rel in
  (zero_pad pad count +:+ "_" +:+ folder_name +:+ "_" +:+ basename orig_path)%string.

(** The loop of lines 215-239; [count] advances only on a successful write. *)
Fixpoint write_loop (write_ok : string -> bool) (source_dir compressed_dir : string)
    (pad : nat) (items : list (string * bytes)) (count : Z) (fs : gmap string bytes)
  : Z * gmap string bytes :=
  match items with
  | [] => (count, fs)
  | (orig_path, data) :: rest =>
      let out_name := out_name_of source_dir pad count orig_path in
      match write_file write_ok compressed_dir out_name data fs with
      | (Some _, fs') => write_loop write_ok source_dir compressed_dir pad rest (count + 1) fs'
      | (None, fs') => write_loop write_ok source_dir compressed_dir pad rest count fs'
      end
  end.

(** ** [MediaProcessor.process_images] (lines 124-242)

    [encode] is [compress_image_to_bytes(., quality)]; [shuffle1] and
    [shuffle2] are the two calls of [random.shuffle]; [fs] is the content of
    the output file system.  The result is the packing state (committed
    items, actual total, codec calls) and the file system afterwards. *)
Definition process_images (shuffle1 shuffle2 : Shuffle) (all_images : list string)
    (getsize : string -> option Z) (encode : string -> option bytes)
    (write_ok : string -> bool) (source_dir compressed_dir : string)
    (fs : gmap string bytes) (max_dir_size_gb quality : Q)
  : pack_state * gmap string bytes :=
  let '(chosen_paths, remaining_paths) :=
    choose_random_subset_by_size shuffle1 all_images getsize max_dir_size_gb quality in
  match chosen_paths with
  | [] => (init_pack_state, fs)
  | _ :: _ =>
      let max_bytes := max_bytes_of max_dir_size_gb in
      let st := pack_both encode max_bytes shuffle2 chosen_paths remaining_paths in
      let chosen_sorted := sorted_by_key (rel_folder_key source_dir) (chosen_actual st) in
      let pad := String.length (pretty (Z.of_nat (length chosen_sorted))) in
      (st, snd (write_loop write_ok source_dir compressed_dir pad chosen_sorted 1 fs))
  end.

(** ** [MediaProcessor.gather_all_images] (lines 19-27)

    [walk] is what [os.walk(self.source_dir)] yields, in order, as pairs
    [(root, files)]; the directory names are not used. *)

(** [self.image_extensions] (line 13) *)
Definition image_extensions : list string :=
  [".jpg"; ".jpeg"; ".png"; ".webp"; ".bmp"]%string.

(** [_, ext = os.path.splitext(name)]; [ext.lower() in self.image_extensions] *)
Definition is_image_name (name : string) : bool :=
  bool_decide (lower (snd (splitext name)) ∈ image_extensions).

(** The inner loop over [files] (lines 22-25). *)
Fixpoint gather_files (root : string) (files : list string) : list string :=
  match files with
  | [] => []
  | name :: rest =>
      if is_image_name name then path_join root name :: gather_files root rest
      else gather_files root rest
  end.

Fixpoint gather_all_images (walk : list (string * list string)) : list string :=
  match walk with
  | [] => []
  | (root, files) :: rest => gather_files root files ++ gather_all_images rest
  end.

(** ** The JPEG quality of [compress_image_to_bytes] (lines 52-54) *)

(** Python's [round] on a float: to the nearest integer, ties to even. *)
Definition py_round (x : Q) : Z :=
  let f := Qfloor x in
  match Qcompare (x - inject_Z f) (1#2) with
  | Lt => f
  | Gt => f + 1
  | Eq => if Z.even f then f else f + 1
  end.

(** [quality_int = max(1, min(95, int(round(float(quality)))))] *)
Definition quality_int (quality : Q) : Z := Z.max 1 (Z.min 95 (py_round quality)).

(** ** Binary64 arithmetic (line 78)

    [compression_factor] above computes with exact rationals.  The line
    [compression_factor = max(0.01, float(quality) / 300.0)] computes with
    IEEE 754 doubles: a finite double is a rational whose significand has 53
    bits, with the unit in the last place at least [2^-1074]; every operation
    rounds its exact result to the nearest double, ties to an even
    significand.  [round64] is that rounding (with an unbounded exponent);
    [Qlog2_floor x] is the exponent [e] with [2^e <= x < 2^(e+1)] for [x > 0]. *)
Definition Qlog2_floor (x : Q) : Z :=
  let e0 := Z.log2 (Qnum x) - Z.log2 (Zpos (Qden x)) in
  if Qlt_le_dec x (2 ^ e0)%Q then e0 - 1 else e0.

Definition ulp_exp (x : Q) : Z := Z.max (Qlog2_floor x - 52) (-1074).

Definition round_pos (x : Q) : Q :=
  let u := ulp_exp x in (inject_Z (py_round (x / 2 ^ u)) * 2 ^ u)%Q.

Definition round64 (x : Q) : Q :=
  match Qcompare x 0 with
  | Eq => 0%Q
  | Gt => round_pos x
  | Lt => (- round_pos (- x))%Q
  end.

(** [float(x)] of an int (the quality read by run.py, line 49): the nearest double; [OverflowError] ([None]) when
    the rounded value is not below [2^1024]. *)
Definition py_float (x : Q) : option Q :=
  let r := round64 x in
  if Qlt_le_dec (Qabs r) (2 ^ 1024)%Q then Some r else None.

(** [a / b] on doubles.  A finite double divided by [300.0] stays far below
    the overflow threshold ([float_div_300_finite]), so no infinity arises. *)
Definition float_div (a b : Q) : Q := round64 (a / b).

(** The literal [0.01]: the double nearest to 1/100. *)
Definition float_0_01 : Q := round64 (1 # 100).

(** [max(a, b)]: [b] replaces [a] only when [b > a]. *)
Definition py_max (a b : Q) : Q := if Qlt_le_dec a b then b else a.

(** [compression_factor = max(0.01, float(quality) / 300.0)] on doubles. *)
Definition compression_factor_f64 (quality : Q) : option Q :=
  match py_float quality with
  | None => None
  | Some fq => Some (py_max float_0_01 (float_div fq 300))
  end.

(** ** The location of [settings.ini] (run.py, lines 21-40)

    [path_exists] is [Path.exists] on an unchanging file system; [base_dir]
    is [get_app_base_dir()], [cwd] is [os.getcwd()] and [meipass] is
    [getattr(sys, '_MEIPASS', None)]; [Path(d) / 'settings.ini'] is
    [path_join d "settings.ini"].  [None] is the [SystemExit] of line 40. *)
Definition find_config_path (path_exists : string -> bool) (base_dir cwd : string)
    (meipass : option string) : option string :=
  let config_path := path_join base_dir "settings.ini" in
  let config_path :=
    if path_exists config_path then config_path
    else
      let alt_cwd := path_join cwd "settings.ini" in
      if path_exists alt_cwd then alt_cwd
      else
        match meipass with
        | Some m =>
            if bool_decide (m = ""%string) then config_path
            else
              let meipass_candidate := path_join m "settings.ini" in
              if path_exists meipass_candidate then meipass_candidate else config_path
        | None => config_path
        end in
  if path_exists config_path then Some config_path else None.

(** ** The reconciliation of the specification (§4.3), as its words read

    Used only to compare with [process_images] (refinement).  For each item:
    stop once the running actual total has reached the budget; skip an item
    whose estimate does not fit; otherwise invoke the codec, skip on failure
    or when the actual size does not fit, and commit otherwise.  Pass B runs
    when the total is below the budget and [remaining] is not empty, over a
    reshuffle of [remaining]. *)
Section ReconcileSpec.

Variable encode : string -> option bytes.
Variable budget_bytes : Z.

Fixpoint reconcile_pass (items : list item) (st : pack_state) : pack_state :=
  match items with
  | [] => st
  | (path, est_size) :: rest =>
      if budget_bytes <=? actual_total st then st
      else if budget_bytes <? actual_total st + est_size then reconcile_pass rest st
      else
        let st1 := log_call path st in
        match encode path with
        | None => reconcile_pass rest st1
        | Some data =>
            if budget_bytes <? actual_total st1 + Z.of_nat (length data)
            then reconcile_pass rest st1
            else reconcile_pass rest (commit path data st1)
        end
  end.

Definition reconcile (shuffle : Shuffle) (chosen remaining : list item) : pack_state :=
  let stA := reconcile_pass chosen init_pack_state in
  if (actual_total stA <? budget_bytes) && negb (bool_decide (remaining = []))
  then reconcile_pass (shuffle remaining) stA
  else stA.

End ReconcileSpec.

(** ** Auxiliary definitions for the statements *)

(** An item of [image_sizes] with its size replaced by its estimate. *)
Definition est_item (factor : Q) (x : item) : item := (fst x, estimate factor (snd x)).

(** Total length of the committed encoded data. *)
Definition sum_lengths (l : list (string * bytes)) : Z :=
  fold_right (fun x acc => Z.of_nat (length (snd x)) + acc) 0 l.

(** The packing invariant: [actual_total] is the total length of the
    committed data and never exceeds [max_bytes]. *)
Definition pack_inv (max_bytes : Z) (st : pack_state) : Prop :=
  actual_total st = sum_lengths (chosen_actual st) /\ actual_total st <= max_bytes.

(** Total size of the files of a file system. *)
Definition dir_bytes (fs : gmap string bytes) : Z :=
  map_fold (fun _ v acc => Z.of_nat (length v) + acc) 0 fs.

(** The candidate locations of [settings.ini], in the order they are tried. *)
Definition config_candidates (base_dir cwd : string) (meipass : option string)
  : list string :=
  [path_join base_dir "settings.ini"; path_join cwd "settings.ini"]%string ++
  match meipass with
  | Some m => if bool_decide (m = ""%string) then [] else [path_join m "settings.ini"%string]
  | None => []
  end.

(** [key_le key x y]: [y] does not have a smaller key than [x]. *)
Definition key_le {A} (key : A -> string * string) (x y : A) : Prop :=
  key_lt (key y) (key x) = false.

(** The item the selector picks first among those of estimate 0. *)
Definition first_zero (l : list item) : list item :=
  match find (fun x => bool_decide (snd x = 0)) l with
  | Some x => [x]
  | None => []
  end.

(** * Proofs *)

(** ** Concrete runs of the definitions *)

Example estimate_75 : estimate (compression_factor 75) 10485760 = 2621440.
Proof. reflexivity. Qed.

Example max_bytes_12MB : max_bytes_of (12 # 1024) = 12582912.
Proof. reflexivity. Qed.

Example select_zero_budget :
  choose_random_subset_by_size id ["a"; "b"; "c"]%string
    (fun p => if String.eqb p "b" then Some 100 else Some 0) 0 75
  = ([("a", 0)], [("b", 25); ("c", 0)])%string.
Proof. reflexivity. Qed.

Example pack_skip_overshoot :
  let enc := fun p : string => if String.eqb p "a" then Some [Byte.x00; Byte.x01; Byte.x02]
                               else if String.eqb p "b" then None else Some [Byte.x00] in
  pack_both enc 3 id [("a", 1); ("b", 1)]%string [("c", 5); ("d", 1)]%string
  = mk_pack_state 3 [("a", [Byte.x00; Byte.x01; Byte.x02])]%string ["a"]%string.
Proof. reflexivity. Qed.

Example splitext_dots : splitext "d/..x" = ("d/..x", "")%string /\ splitext "d/a..x" = ("d/a.", ".x")%string /\ splitext "d/..." = ("d/...", "")%string.
Proof. repeat split; reflexivity. Qed.

Example zero_pad_ex : zero_pad 3 7 = "007"%string /\ zero_pad 1 12 = "12"%string.
Proof. split; reflexivity. Qed.

Example splitext_ex : splitext "01_root_a.b.jpg" = ("01_root_a.b", ".jpg")%string.
Proof. reflexivity. Qed.

Example dirname_ex : dirname "/src/a/b.jpg" = "/src/a"%string /\ basename "/src/a/b.jpg" = "b.jpg"%string
  /\ dirname "b.jpg" = ""%string /\ dirname "/b.jpg" = "/"%string.
Proof. repeat split; reflexivity. Qed.

Example out_name_ex :
  out_name_of "/src" 2 3 "/src/a/b/Cat.JPG" = "03_a_b_Cat.JPG"%string
  /\ out_name_of "/src" 1 1 "/src/x.png" = "1_root_x.png"%string.
Proof. split; reflexivity. Qed.

Example sort_ex :
  map fst (sorted_by_key (rel_folder_key "/s") [("/s/b/x.jpg", []); ("/s/A/y.jpg", []); ("/s/z.jpg", [])]%string)
  = ["/s/z.jpg"; "/s/A/y.jpg"; "/s/b/x.jpg"]%string.
Proof. reflexivity. Qed.

Example collision_ex :
  let fs0 : gmap string bytes := {[ "/o/compressed/1_root_x.png"%string := [] ]} in
  write_file (fun _ => true) "/o/compressed" "1_root_x.png" [Byte.x01] fs0
  = (Some "/o/compressed/1_root_x_1.png"%string,
     <[ "/o/compressed/1_root_x_1.png"%string := [Byte.x01] ]> fs0).
Proof. reflexivity. Qed.

(** ** Generic facts *)

Lemma has_path_spec (p : string) (l : list item) :
  has_path p l = true <-> p ∈ map fst l.
Proof.
  unfold has_path. rewrite existsb_exists. split.
  - intros [[q s] [Hin Heq]]. apply String.eqb_eq in Heq. subst q.
    apply list_elem_of_In. apply in_map_iff. exists (p, s). auto.
  - intros Hin. apply list_elem_of_In, in_map_iff in Hin as [[q s] [Hq Hin]].
    simpl in Hq. subst q. exists (p, s). split; [done|]. apply String.eqb_refl.
Qed.

Lemma has_path_false (p : string) (l : list item) :
  has_path p l = false <-> p ∉ map fst l.
Proof.
  rewrite <- has_path_spec. destruct (has_path p l); split; intros H; try done.
Qed.

Lemma py_int_nonneg (x : Q) : (0 <= x)%Q -> 0 <= py_int x.
Proof.
  unfold py_int, Qle. simpl. intros H. apply Z.quot_pos; lia.
Qed.

Lemma compression_factor_pos (quality : Q) : (1 # 100 <= compression_factor quality)%Q.
Proof. unfold compression_factor. apply Q.le_max_l. Qed.

Lemma estimate_nonneg (quality : Q) (orig_size : Z) :
  0 <= orig_size -> 0 <= estimate (compression_factor quality) orig_size.
Proof.
  intros H. unfold estimate. apply py_int_nonneg.
  apply Qmult_le_0_compat.
  - unfold Qle. simpl. lia.
  - eapply Qle_trans; [|apply compression_factor_pos]. unfold Qle. simpl. lia.
Qed.

(** ** The selector *)

Lemma sum_sizes_snoc (l : list item) (x : item) :
  sum_sizes (l ++ [x]) = sum_sizes l + snd x.
Proof.
  induction l as [|y l IH]; simpl; [lia|]. unfold sum_sizes in *. simpl. lia.
Qed.

(** The running [estimated_total] is the sum over [chosen_paths], and it
    stays within the budget once an item has been admitted. *)
Lemma select_loop_total (f : Q) (m : Z) (l ch rem : list item) (tot : Z)
    (ch' rem' : list item) (t' : Z) :
  select_loop f m l ch rem tot = (ch', rem', t') ->
  sum_sizes ch = tot ->
  sum_sizes ch' = t' /\ (t' <= m \/ (t' = tot /\ ch' = ch)).
Proof.
  revert ch rem tot. induction l as [|[p o] l IH]; intros ch rem tot Hrun Hsum; simpl in Hrun.
  - injection Hrun as <- <- <-. auto.
  - destruct (Z.ltb_spec m (tot + estimate f o)) as [Hgt|Hle].
    + apply IH in Hrun; tauto.
    + destruct (Z.leb_spec m (tot + estimate f o)) as [Hge|Hlt].
      * injection Hrun as <- <- <-. rewrite sum_sizes_snoc. simpl. split; lia.
      * apply IH in Hrun as [Hs Hb]; [|rewrite sum_sizes_snoc; simpl; lia].
        split; [done|]. left. destruct Hb as [Hb|[Hb _]]; lia.
Qed.

(** The loop classifies a prefix [l1] of its input, each item into one of
    the two lists, and leaves the suffix [l2] unvisited. *)
Lemma select_loop_split (f : Q) (m : Z) (l ch rem : list item) (tot : Z)
    (ch' rem' : list item) (t' : Z) :
  select_loop f m l ch rem tot = (ch', rem', t') ->
  exists l1 l2, l = l1 ++ l2 /\ ch' ++ rem' ≡ₚ ch ++ rem ++ map (est_item f) l1.
Proof.
  revert ch rem tot. induction l as [|[p o] l IH]; intros ch rem tot Hrun; simpl in Hrun.
  - injection Hrun as <- <- <-. exists [], []. simpl. rewrite app_nil_r. done.
  - destruct (m <? tot + estimate f o).
    + apply IH in Hrun as (l1 & l2 & -> & Hperm).
      exists ((p, o) :: l1), l2. split; [done|]. rewrite Hperm. simpl.
      rewrite <- !app_assoc. simpl. done.
    + destruct (m <=? tot + estimate f o).
      * injection Hrun as <- <- <-. exists [(p, o)], l. split; [done|]. simpl.
        rewrite <- app_assoc. simpl. apply Permutation_app_head.
        apply Permutation_cons_append.
      * apply IH in Hrun as (l1 & l2 & -> & Hperm).
        exists ((p, o) :: l1), l2. split; [done|]. rewrite Hperm. simpl.
        rewrite <- !app_assoc. simpl. apply Permutation_app_head.
        apply Permutation_middle.
Qed.

(** [chosen_paths] only grows. *)
Lemma select_loop_chosen_nonempty (f : Q) (m : Z) (l ch rem : list item) (tot : Z)
    (ch' rem' : list item) (t' : Z) :
  select_loop f m l ch rem tot = (ch', rem', t') -> ch <> [] -> ch' <> [].
Proof.
  revert ch rem tot. induction l as [|[p o] l IH]; intros ch rem tot Hrun Hne; simpl in Hrun.
  - by injection Hrun as <- _ _.
  - destruct (m <? tot + estimate f o); [eauto|].
    destruct (m <=? tot + estimate f o).
    + injection Hrun as <- _ _. by destruct ch.
    + eapply IH; [exact Hrun|]. by destruct ch.
Qed.

(** If nothing is admitted, every visited item was rejected against the
    untouched total and the loop ran to the end. *)
Lemma select_loop_nothing_chosen (f : Q) (m : Z) (l rem : list item) (tot : Z)
    (rem' : list item) (t' : Z) :
  select_loop f m l [] rem tot = ([], rem', t') ->
  rem' = rem ++ map (est_item f) l /\ (forall x, x ∈ l -> m < tot + estimate f (snd x)).
Proof.
  revert rem. induction l as [|[p o] l IH]; intros rem Hrun; simpl in Hrun.
  - injection Hrun as <- _. rewrite app_nil_r. split; [done|]. intros x Hx.
    by apply not_elem_of_nil in Hx.
  - destruct (Z.ltb_spec m (tot + estimate f o)) as [Hgt|Hle].
    + apply IH in Hrun as [-> Hall]. split.
      * rewrite <- app_assoc. done.
      * intros x Hx. apply elem_of_cons in Hx as [->|Hx]; [done|]. auto.
    + exfalso. destruct (m <=? tot + estimate f o).
      * injection Hrun as Hc _ _. done.
      * eapply select_loop_chosen_nonempty; [exact Hrun| |done]. done.
Qed.

Lemma add_unprocessed_app (f : Q) (l1 l2 ch rem : list item) :
  add_unprocessed f (l1 ++ l2) ch rem = add_unprocessed f l2 ch (add_unprocessed f l1 ch rem).
Proof.
  revert rem. induction l1 as [|[p o] l1 IH]; intros rem; simpl; auto.
Qed.

Lemma add_unprocessed_seen (f : Q) (l ch rem : list item) :
  (forall x, x ∈ l -> fst x ∈ map fst ch \/ fst x ∈ map fst rem) ->
  add_unprocessed f l ch rem = rem.
Proof.
  induction l as [|[p o] l IH]; intros Hseen; simpl; [done|].
  destruct (Hseen (p, o)) as [Hc|Hc]; [by left| |]; simpl in Hc.
  - apply has_path_spec in Hc. rewrite Hc. simpl.
    apply IH. intros x Hx. apply Hseen. by right.
  - apply has_path_spec in Hc. rewrite Hc, andb_false_r.
    apply IH. intros x Hx. apply Hseen. by right.
Qed.

Lemma add_unprocessed_fresh (f : Q) (l ch rem : list item) :
  NoDup (map fst l) ->
  (forall x, x ∈ l -> (fst x ∉ map fst ch) /\ (fst x ∉ map fst rem)) ->
  add_unprocessed f l ch rem = rem ++ map (est_item f) l.
Proof.
  revert rem. induction l as [|[p o] l IH]; intros rem Hnd Hfresh; simpl.
  - by rewrite app_nil_r.
  - simpl in Hnd. apply NoDup_cons in Hnd as [Hp Hnd].
    destruct (Hfresh (p, o)) as [Hc Hr]; [by left|]. simpl in Hc, Hr.
    apply has_path_false in Hc, Hr. rewrite Hc, Hr. simpl.
    rewrite IH; [by rewrite <- app_assoc|done|].
    intros x Hx. destruct (Hfresh x) as [Hxc Hxr]; [by right|].
    split; [done|]. rewrite map_app. simpl. rewrite elem_of_app, list_elem_of_singleton.
    intros [H|H]; [done|]. subst p. apply Hp. apply list_elem_of_In, in_map, list_elem_of_In, Hx.
Qed.

Lemma map_fst_est_item (f : Q) (l : list item) : map fst (map (est_item f) l) = map fst l.
Proof. rewrite map_map. by apply map_ext. Qed.

Lemma scan_sizes_paths (getsize : string -> option Z) (paths : list string) (p : string) :
  p ∈ map fst (scan_sizes getsize paths) -> p ∈ paths.
Proof.
  induction paths as [|q paths IH]; simpl; [done|].
  destruct (getsize q); simpl; rewrite ?elem_of_cons; intros H; [|auto].
  destruct H as [->|H]; auto.
Qed.

Lemma scan_sizes_NoDup (getsize : string -> option Z) (paths : list string) :
  NoDup paths -> NoDup (map fst (scan_sizes getsize paths)).
Proof.
  induction paths as [|q paths IH]; simpl; intros Hnd; [constructor|].
  apply NoDup_cons in Hnd as [Hq Hnd].
  destruct (getsize q); simpl; [|auto]. constructor; [|auto].
  intros H. by apply Hq, (scan_sizes_paths getsize).
Qed.

(** The selector's result is a permutation of the estimated items of its
    (shuffled) input, provided the paths are distinct. *)
Lemma select_partition (f : Q) (m : Z) (l : list item) :
  NoDup (map fst l) ->
  let '(ch, rem, _) := select_loop f m l [] [] 0 in
  ch ++ add_unprocessed f l ch rem ≡ₚ map (est_item f) l.
Proof.
  intros Hnd. destruct (select_loop f m l [] [] 0) as [[ch rem] t] eqn:Hrun.

  destruct (select_loop_split _ _ _ _ _ _ _ _ _ Hrun) as (l1 & l2 & -> & Hperm).
  simpl in Hperm.
  assert (Hfst : map fst (ch ++ rem) ≡ₚ map fst l1).
  { rewrite Hperm. by rewrite map_fst_est_item. }
  rewrite map_app in Hnd. apply NoDup_app in Hnd as (Hnd1 & Hdisj & Hnd2).
  rewrite add_unprocessed_app, (add_unprocessed_seen f l1 ch rem).
  - rewrite (add_unprocessed_fresh f l2 ch rem); [|done|].
    + rewrite app_assoc, Hperm, map_app. done.
    + intros x Hx. assert (Hx2 : fst x ∈ map fst l2).
      { apply list_elem_of_In, in_map, list_elem_of_In, Hx. }
      split; intros Hin; apply (Hdisj (fst x)); auto;
        rewrite <- Hfst, map_app, elem_of_app; auto.
  - intros x Hx. rewrite <- elem_of_app, <- map_app, Hfst.
    apply list_elem_of_In, in_map, list_elem_of_In, Hx.
Qed.

Lemma choose_nonempty_unfold (shuffle : Shuffle) (all_images : list string)
    (getsize : string -> option Z) (g quality : Q) :
  all_images <> [] ->
  choose_random_subset_by_size shuffle all_images getsize g quality =
  let image_sizes := shuffle (scan_sizes getsize all_images) in
  let '(ch, rem, _) := select_loop (compression_factor quality) (max_bytes_of g) image_sizes [] [] 0 in
  (ch, add_unprocessed (compression_factor quality) image_sizes ch rem).
Proof. destruct all_images; [done|]. reflexivity. Qed.

(** ** Claim C2 *)

(** C2 (as stated, refuted): for a negative budget ([max_dir_size_gb = -1])
    nothing is chosen, and the empty sum 0 exceeds the budget. *)
Lemma selector_budget_negative_counterexample :
  sum_sizes (fst (choose_random_subset_by_size id ["a.jpg"]%string (fun _ => Some 100) (-1) 75))
  > max_bytes_of (-1).
Proof. vm_compute. reflexivity. Qed.

(** C2 (amended): for every shuffle, input and quality, and every
    [budget_bytes >= 0], the estimated sizes of the selector's [chosen] list
    sum to at most [budget_bytes]. *)
Theorem selector_budget_respected (shuffle : Shuffle) (all_images : list string)
    (getsize : string -> option Z) (max_dir_size_gb quality : Q) :
  0 <= max_bytes_of max_dir_size_gb ->
  sum_sizes (fst (choose_random_subset_by_size shuffle all_images getsize max_dir_size_gb quality))
  <= max_bytes_of max_dir_size_gb.
Proof.
  intros Hm. destruct all_images as [|a rest]; [simpl; lia|].
  rewrite choose_nonempty_unfold by done. cbv zeta.
  destruct (select_loop _ _ _ [] [] 0) as [[ch rem] t] eqn:Hrun. simpl.
  apply select_loop_total in Hrun as [Hs Hb]; [|done].
  destruct Hb as [Hb|[-> ->]]; simpl; lia.
Qed.

Lemma selector_budget_respected_witness :
  0 <= max_bytes_of (12 # 1024) /\
  sum_sizes (fst (choose_random_subset_by_size id ["a.jpg"; "b.jpg"]%string
                    (fun _ => Some 10485760) (12 # 1024) 75)) <= max_bytes_of (12 # 1024).
Proof.
  split; [vm_compute; discriminate|].
  apply selector_budget_respected. vm_compute. discriminate.
Defined.

(** ** Claim C3 *)

(** C3: when the scanned paths are distinct (they come from [os.walk]) and
    [random.shuffle] permutes its argument, the selector's [chosen] and
    [remaining] together are a permutation of the input items (with their
    estimated sizes): their lengths add up to the number of input items, no
    path occurs twice in [chosen ++ remaining], and none is omitted. *)
Theorem selector_partition_complete (shuffle : Shuffle) (all_images : list string)
    (getsize : string -> option Z) (max_dir_size_gb quality : Q) :
  NoDup all_images ->
  (forall l, shuffle l ≡ₚ l) ->
  let items := scan_sizes getsize all_images in
  let '(chosen, remaining) :=
    choose_random_subset_by_size shuffle all_images getsize max_dir_size_gb quality in
  chosen ++ remaining ≡ₚ map (est_item (compression_factor quality)) items /\
  NoDup (map fst (chosen ++ remaining)) /\
  (length chosen + length remaining = length items)%nat.
Proof.
  intros Hnd Hsh items.
  assert (Hnd_items : NoDup (map fst items)) by (apply scan_sizes_NoDup, Hnd).
  assert (Hp : let '(ch, rem) := choose_random_subset_by_size shuffle all_images getsize
                                   max_dir_size_gb quality in
               ch ++ rem ≡ₚ map (est_item (compression_factor quality)) items).
  { destruct all_images as [|a rest]; [subst items; simpl; reflexivity|].
    rewrite choose_nonempty_unfold by done. cbv zeta.
    pose proof (select_partition (compression_factor quality) (max_bytes_of max_dir_size_gb)
                  (shuffle (scan_sizes getsize (a :: rest)))) as Hp.
    destruct (select_loop _ _ _ [] [] 0) as [[ch rem] t].
    rewrite Hp.
    - apply Permutation_map, Hsh.
    - rewrite (Hsh (scan_sizes getsize (a :: rest))). exact Hnd_items. }
  destruct (choose_random_subset_by_size _ _ _ _ _) as [ch rem].
  split; [done|]. split.
  - rewrite Hp, map_fst_est_item. done.
  - rewrite <- length_app, Hp, length_map. done.
Qed.

(** Five paths, of which "e.jpg" cannot be sized; estimates of 1000, 1500,
    1000 and 1000 bytes against a budget of 2000 bytes.  The loop admits
    "a.jpg", rejects "b.jpg", admits "c.jpg" and breaks with the total at the
    budget, so "d.jpg" is never visited and goes to [remaining] in the
    post-pass. *)
Lemma selector_partition_complete_witness :
  NoDup ["a.jpg"; "b.jpg"; "c.jpg"; "d.jpg"; "e.jpg"]%string /\
  (forall l : list item, id l ≡ₚ l) /\
  choose_random_subset_by_size id ["a.jpg"; "b.jpg"; "c.jpg"; "d.jpg"; "e.jpg"]%string
    (fun p => if String.eqb p "b.jpg" then Some 6000
              else if String.eqb p "e.jpg" then None else Some 4000)
    (2000 # 1073741824) 75 =
    ([("a.jpg", 1000); ("c.jpg", 1000)]%string, [("b.jpg", 1500); ("d.jpg", 1000)]%string) /\
  let items := scan_sizes (fun p => if String.eqb p "b.jpg" then Some 6000
                                    else if String.eqb p "e.jpg" then None else Some 4000)
                 ["a.jpg"; "b.jpg"; "c.jpg"; "d.jpg"; "e.jpg"]%string in
  let '(chosen, remaining) :=
    choose_random_subset_by_size id ["a.jpg"; "b.jpg"; "c.jpg"; "d.jpg"; "e.jpg"]%string
      (fun p => if String.eqb p "b.jpg" then Some 6000
                else if String.eqb p "e.jpg" then None else Some 4000)
      (2000 # 1073741824) 75 in
  chosen ++ remaining ≡ₚ map (est_item (compression_factor 75)) items /\
  NoDup (map fst (chosen ++ remaining)) /\
  (length chosen + length remaining = length items)%nat.
Proof.
  assert (Hnd : NoDup ["a.jpg"; "b.jpg"; "c.jpg"; "d.jpg"; "e.jpg"]%string)
    by (repeat constructor; set_solver).
  assert (Hid : forall l : list item, id l ≡ₚ l) by (intros l; reflexivity).
  split; [exact Hnd|]. split; [exact Hid|]. split; [vm_compute; reflexivity|].
  exact (selector_partition_complete id ["a.jpg"; "b.jpg"; "c.jpg"; "d.jpg"; "e.jpg"]%string
           (fun p => if String.eqb p "b.jpg" then Some 6000
                     else if String.eqb p "e.jpg" then None else Some 4000)
           (2000 # 1073741824) 75 Hnd Hid).
Defined.

(** ** Claim C4 *)

Lemma estimate_item_nonneg (quality : Q) (getsize : string -> option Z) (paths : list string) :
  (forall p s, getsize p = Some s -> 0 <= s) ->
  forall x, x ∈ scan_sizes getsize paths -> 0 <= estimate (compression_factor quality) (snd x).
Proof.
  intros Hsz. induction paths as [|p paths IH]; simpl; intros x Hx.
  - by apply not_elem_of_nil in Hx.
  - destruct (getsize p) as [s|] eqn:Hs; [|auto].
    apply elem_of_cons in Hx as [->|Hx]; [|auto].
    apply estimate_nonneg. simpl. eauto.
Qed.

(** With a zero budget, the loop admits the first item of estimate 0 and
    stops there, the running total having reached the budget. *)
Lemma select_loop_zero_budget (f : Q) (l rem : list item) (ch' rem' : list item) (t' : Z) :
  (forall x, x ∈ l -> 0 <= estimate f (snd x)) ->
  select_loop f 0 l [] rem 0 = (ch', rem', t') ->
  ch' = first_zero (map (est_item f) l).
Proof.
  revert rem. induction l as [|[p o] l IH]; intros rem Hnn Hrun; simpl in Hrun.
  - by injection Hrun as <- _ _.
  - assert (He : 0 <= estimate f o) by (apply (Hnn (p, o)); by left).
    unfold first_zero. simpl.
    destruct (Z.ltb_spec 0 (0 + estimate f o)) as [Hgt|Hle].
    + rewrite bool_decide_false by lia.
      eapply IH; [|exact Hrun]. intros x Hx. apply Hnn. by right.
    + assert (Hz : estimate f o = 0) by lia.
      rewrite bool_decide_true by done. rewrite Hz in Hrun. simpl in Hrun.
      injection Hrun as <- _ _. unfold est_item. simpl. by rewrite Hz.
Qed.

(** C4 (as stated, refuted): with a zero budget and two images of size 0
    (estimate 0), the second one is not chosen but put in [remaining]. *)
Lemma zero_budget_second_zero_item_counterexample :
  let '(chosen, remaining) :=
    choose_random_subset_by_size id ["a.jpg"; "b.jpg"]%string (fun _ => Some 0) 0 75 in
  estimate (compression_factor 75) 0 = 0 /\ max_bytes_of 0 = 0 /\
  (("b.jpg"%string, 0) ∉ chosen) /\ (("b.jpg"%string, 0) ∈ remaining).
Proof.
  assert (H : choose_random_subset_by_size id ["a.jpg"; "b.jpg"]%string (fun _ => Some 0) 0 75
              = ([("a.jpg"%string, 0)], [("b.jpg"%string, 0)])) by reflexivity.
  rewrite H. split; [reflexivity|]. split; [reflexivity|]. split; set_solver.
Qed.

(** C4 (amended): when [budget_bytes = 0] (sizes being non-negative, the
    paths distinct and the shuffle a permutation), [chosen] is exactly the
    first item of estimate 0 in shuffle order, or empty if there is none, and
    every other item, whatever its estimate, is in [remaining]. *)
Theorem selector_zero_budget (shuffle : Shuffle) (all_images : list string)
    (getsize : string -> option Z) (max_dir_size_gb quality : Q) :
  max_bytes_of max_dir_size_gb = 0 ->
  (forall p s, getsize p = Some s -> 0 <= s) ->
  NoDup all_images ->
  (forall l, shuffle l ≡ₚ l) ->
  let shuffled := map (est_item (compression_factor quality))
                    (shuffle (scan_sizes getsize all_images)) in
  let '(chosen, remaining) :=
    choose_random_subset_by_size shuffle all_images getsize max_dir_size_gb quality in
  chosen = first_zero shuffled /\
  (forall x, x ∈ shuffled -> x ∉ chosen -> x ∈ remaining).
Proof.
  intros Hm Hsz Hnd Hsh shuffled.
  destruct all_images as [|a rest].
  - subst shuffled. simpl. pose proof (Hsh []) as H0.
    symmetry in H0; apply Permutation_nil in H0. rewrite H0. simpl. split; [done|].
    intros x Hx. by apply not_elem_of_nil in Hx.
  - rewrite choose_nonempty_unfold by done. cbv zeta. rewrite Hm.
    set (l := shuffle (scan_sizes getsize (a :: rest))) in *.
    assert (Hnn : forall x, x ∈ l -> 0 <= estimate (compression_factor quality) (snd x)).
    { intros x Hx. apply (estimate_item_nonneg quality getsize (a :: rest) Hsz).
      subst l. by rewrite <- (Hsh (scan_sizes getsize (a :: rest))). }
    assert (Hnd_l : NoDup (map fst l)).
    { subst l. rewrite (Hsh (scan_sizes getsize (a :: rest))). by apply scan_sizes_NoDup. }
    pose proof (select_partition (compression_factor quality) 0 l Hnd_l) as Hp.
    destruct (select_loop _ 0 l [] [] 0) as [[ch rem] t] eqn:Hrun.
    split.
    + eapply select_loop_zero_budget; [exact Hnn|exact Hrun].
    + intros x Hx Hnc. subst shuffled. rewrite <- Hp in Hx.
      apply elem_of_app in Hx as [Hx|Hx]; [done|exact Hx].
Qed.

Lemma selector_zero_budget_witness :
  max_bytes_of 0 = 0 /\
  (forall p s, (fun _ : string => Some 0) p = Some s -> 0 <= s) /\
  NoDup ["a.jpg"; "b.jpg"]%string /\ (forall l : list item, id l ≡ₚ l) /\
  let shuffled := map (est_item (compression_factor 75))
                    (id (scan_sizes (fun _ => Some 0) ["a.jpg"; "b.jpg"]%string)) in
  let '(chosen, remaining) :=
    choose_random_subset_by_size id ["a.jpg"; "b.jpg"]%string (fun _ => Some 0) 0 75 in
  chosen = first_zero shuffled /\
  (forall x, x ∈ shuffled -> x ∉ chosen -> x ∈ remaining).
Proof.
  assert (Hm : max_bytes_of 0 = 0) by reflexivity.
  assert (Hsz : forall p s, (fun _ : string => Some 0) p = Some s -> 0 <= s)
    by (intros p s H; injection H as <-; lia).
  assert (Hnd : NoDup ["a.jpg"; "b.jpg"]%string) by (repeat constructor; set_solver).
  assert (Hid : forall l : list item, id l ≡ₚ l) by (intros l; reflexivity).
  repeat (split; [assumption|]).
  exact (selector_zero_budget id _ _ 0 75 Hm Hsz Hnd Hid).
Defined.

(** ** The packing passes *)

Lemma sum_lengths_snoc (l : list (string * bytes)) (x : string * bytes) :
  sum_lengths (l ++ [x]) = sum_lengths l + Z.of_nat (length (snd x)).
Proof.
  induction l as [|y l IH]; simpl; [lia|]. unfold sum_lengths in *. simpl. lia.
Qed.

Lemma pack_inv_log_call (m : Z) (p : string) (st : pack_state) :
  pack_inv m st -> pack_inv m (log_call p st).
Proof. done. Qed.

Lemma pack_pass_inv (encode : string -> option bytes) (m : Z) (l : list item) (st : pack_state) :
  pack_inv m st -> pack_inv m (pack_pass encode m l st).
Proof.
  revert st. induction l as [|[p e] l IH]; intros st [Hs Hb]; simpl; [by split|].
  destruct (m <=? actual_total st); [by split|].
  destruct (m <? actual_total st + e); [by apply IH|].
  destruct (encode p) as [data|]; [|by apply IH, pack_inv_log_call].
  simpl. destruct (Z.ltb_spec m (actual_total st + Z.of_nat (length data))) as [Hgt|Hle];
    [by apply IH, pack_inv_log_call|].
  assert (Hinv : pack_inv m (commit p data (log_call p st))).
  { unfold pack_inv, commit, log_call. simpl. rewrite sum_lengths_snoc. simpl. lia. }
  destruct (m <=? actual_total st + Z.of_nat (length data)); [done|]. by apply IH.
Qed.

Lemma pack_both_inv (encode : string -> option bytes) (m : Z) (shuffle : Shuffle)
    (ch rem : list item) :
  0 <= m -> pack_inv m (pack_both encode m shuffle ch rem).
Proof.
  intros Hm. unfold pack_both.
  assert (HA : pack_inv m (pack_pass encode m ch init_pack_state))
    by (apply pack_pass_inv; unfold pack_inv; simpl; lia).
  destruct (_ && _); [by apply pack_pass_inv|done].
Qed.

(** Pass A and Pass B as the code writes them (with the [break] after a
    commit that reaches the budget) coincide with the passes of the
    specification (which stop at the next item). *)
Lemma reconcile_pass_full (encode : string -> option bytes) (m : Z) (l : list item)
    (st : pack_state) :
  m <= actual_total st -> reconcile_pass encode m l st = st.
Proof.
  intros H. destruct l as [|[p e] l]; simpl; [done|].
  by rewrite (proj2 (Z.leb_le _ _) H).
Qed.

Lemma pack_pass_reconcile_pass (encode : string -> option bytes) (m : Z) (l : list item)
    (st : pack_state) :
  pack_pass encode m l st = reconcile_pass encode m l st.
Proof.
  revert st. induction l as [|[p e] l IH]; intros st; simpl; [done|].
  destruct (m <=? actual_total st); [done|].
  destruct (m <? actual_total st + e); [done|].
  destruct (encode p) as [data|]; [|done].
  destruct (m <? _); [done|].
  destruct (Z.leb_spec m (actual_total st + Z.of_nat (length data))) as [Hge|Hlt].
  - rewrite reconcile_pass_full; [done|]. simpl. lia.
  - done.
Qed.

(** A pass over items that all fail the estimate pre-filter does nothing. *)
Lemma reconcile_pass_all_skipped (encode : string -> option bytes) (m : Z) (l : list item)
    (st : pack_state) :
  (forall x, x ∈ l -> m < actual_total st + snd x) -> reconcile_pass encode m l st = st.
Proof.
  induction l as [|[p e] l IH]; intros Hall; simpl; [done|].
  destruct (m <=? actual_total st); [done|].
  rewrite (proj2 (Z.ltb_lt _ _)) by (apply (Hall (p, e)); by left).
  apply IH. intros x Hx. apply Hall. by right.
Qed.

(** When the selector chooses nothing, every item of [remaining] has an
    estimate above the budget. *)
Lemma choose_nothing_remaining_too_big (shuffle : Shuffle) (all_images : list string)
    (getsize : string -> option Z) (g quality : Q) (rem : list item) :
  choose_random_subset_by_size shuffle all_images getsize g quality = ([], rem) ->
  forall x, x ∈ rem -> max_bytes_of g < snd x.
Proof.
  destruct all_images as [|a rest].
  - simpl. intros Heq. injection Heq as <-. intros x Hx. by apply not_elem_of_nil in Hx.
  - rewrite choose_nonempty_unfold by done. cbv zeta.
    destruct (select_loop _ _ _ [] [] 0) as [[ch rem0] t] eqn:Hrun.
    intros Heq. injection Heq as -> <-.
    apply select_loop_nothing_chosen in Hrun as [-> Hall]. simpl.
    rewrite add_unprocessed_seen.
    + intros x Hx. apply list_elem_of_In, in_map_iff in Hx as [y [<- Hy]].
      apply list_elem_of_In in Hy. apply Hall in Hy. simpl. lia.
    + intros x Hx. right. rewrite map_fst_est_item.
      apply list_elem_of_In, in_map, list_elem_of_In, Hx.
Qed.

(** ** Claim C1 *)

(** C1 (as stated, refuted): with [max_dir_size_gb = -1] the budget is
    negative; the run selects and writes nothing, and the empty output's total
    0 exceeds the budget. *)
Lemma output_budget_negative_counterexample :
  sum_lengths (chosen_actual (fst (process_images id id ["a.jpg"]%string
     (fun _ => Some 100) (fun _ => Some [Byte.x00]) (fun _ => true)
     "/src" "/out/compressed" ∅ (-1) 75)))
  > max_bytes_of (-1).
Proof. vm_compute. reflexivity. Qed.

(** C1 (amended): for every run of [process_images] whose budget
    [budget_bytes = int(max_dir_size_gb * 2^30)] is non-negative, whatever the
    shuffles, the size lookups and the encoder (and so however far the actual
    encoded sizes are from the estimates), the actual encoded bytes committed
    by Pass A and Pass B add up to at most [budget_bytes]. *)
Theorem process_images_budget_respected (shuffle1 shuffle2 : Shuffle)
    (all_images : list string) (getsize : string -> option Z)
    (encode : string -> option bytes) (write_ok : string -> bool)
    (source_dir compressed_dir : string) (fs : gmap string bytes)
    (max_dir_size_gb quality : Q) :
  0 <= max_bytes_of max_dir_size_gb ->
  sum_lengths (chosen_actual (fst (process_images shuffle1 shuffle2 all_images getsize encode
     write_ok source_dir compressed_dir fs max_dir_size_gb quality)))
  <= max_bytes_of max_dir_size_gb.
Proof.
  intros Hm. unfold process_images.
  destruct (choose_random_subset_by_size _ _ _ _ _) as [[|x ch] rem]; simpl; [lia|].
  destruct (pack_both_inv encode (max_bytes_of max_dir_size_gb) shuffle2 (x :: ch) rem Hm)
    as [Hs Hb].
  lia.
Qed.

Lemma process_images_budget_respected_witness :
  0 <= max_bytes_of (1 # 1048576) /\
  sum_lengths (chosen_actual (fst (process_images id id ["a.jpg"; "b.jpg"]%string
     (fun _ => Some 4000) (fun _ => Some (repeat Byte.x00 700)) (fun _ => true)
     "/src" "/out/compressed" ∅ (1 # 1048576) 75)))
  <= max_bytes_of (1 # 1048576).
Proof.
  split; [vm_compute; discriminate|].
  apply process_images_budget_respected. vm_compute. discriminate.
Defined.

(** ** Claim C5 *)

(** C5: the passes of [process_images] are the reconciliation of the
    specification ([reconcile]): Pass A over [chosen] in the selector's order,
    with the stop, estimate pre-filter, actual-size skip and commit steps, and
    Pass B over [shuffle2 remaining] exactly when the total is below the
    budget and [remaining] is not empty.  Committed items, actual total and
    the sequence of codec calls all agree, for every input, as soon as
    [random.shuffle] permutes its argument.  (When the selector chooses
    nothing the code returns before Pass B; this is the same outcome, since
    every remaining item then fails the estimate pre-filter.) *)
Theorem process_images_refines_reconcile (shuffle1 shuffle2 : Shuffle)
    (all_images : list string) (getsize : string -> option Z)
    (encode : string -> option bytes) (write_ok : string -> bool)
    (source_dir compressed_dir : string) (fs : gmap string bytes)
    (max_dir_size_gb quality : Q) :
  (forall l, shuffle2 l ≡ₚ l) ->
  let '(chosen, remaining) :=
    choose_random_subset_by_size shuffle1 all_images getsize max_dir_size_gb quality in
  fst (process_images shuffle1 shuffle2 all_images getsize encode write_ok
         source_dir compressed_dir fs max_dir_size_gb quality)
  = reconcile encode (max_bytes_of max_dir_size_gb) shuffle2 chosen remaining.
Proof.
  intros Hsh. unfold process_images.
  destruct (choose_random_subset_by_size _ _ _ _ _) as [[|x ch] rem] eqn:Hc.
  - simpl. unfold reconcile. simpl.
    destruct (_ && _); [|done].
    symmetry. apply reconcile_pass_all_skipped. intros y Hy. simpl.
    rewrite (Hsh rem) in Hy. pose proof (choose_nothing_remaining_too_big _ _ _ _ _ _ Hc y Hy).
    lia.
  - simpl. unfold pack_both, reconcile. rewrite !pack_pass_reconcile_pass. done.
Qed.

Lemma process_images_refines_reconcile_witness :
  (forall l : list item, id l ≡ₚ l) /\
  let '(chosen, remaining) :=
    choose_random_subset_by_size id ["a.jpg"; "b.jpg"; "c.jpg"]%string (fun _ => Some 4000)
      (1 # 1048576) 75 in
  fst (process_images id id ["a.jpg"; "b.jpg"; "c.jpg"]%string (fun _ => Some 4000)
         (fun p => if String.eqb p "b.jpg" then None else Some (repeat Byte.x00 300))
         (fun _ => true) "/src" "/out/compressed" ∅ (1 # 1048576) 75)
  = reconcile (fun p => if String.eqb p "b.jpg" then None else Some (repeat Byte.x00 300))
      (max_bytes_of (1 # 1048576)) id chosen remaining.
Proof.
  assert (Hid : forall l : list item, id l ≡ₚ l) by (intros l; reflexivity).
  split; [exact Hid|].
  exact (process_images_refines_reconcile id id ["a.jpg"; "b.jpg"; "c.jpg"]%string
           (fun _ => Some 4000)
           (fun p => if String.eqb p "b.jpg" then None else Some (repeat Byte.x00 300))
           (fun _ => true) "/src" "/out/compressed" ∅ (1 # 1048576) 75 Hid).
Defined.

(** ** Claim C6 *)

(** C6: in either pass (both run [pack_pass], see [pack_both]), an item whose
    encoding raises is skipped: the pass goes on with the next item, from a
    state whose running actual total and committed list are unchanged (only
    the attempted codec call is recorded). *)
Theorem pack_pass_encode_failure_skipped (encode : string -> option bytes) (max_bytes : Z)
    (path : string) (est_size : Z) (rest : list item) (st : pack_state) :
  actual_total st < max_bytes ->
  actual_total st + est_size <= max_bytes ->
  encode path = None ->
  pack_pass encode max_bytes ((path, est_size) :: rest) st
  = pack_pass encode max_bytes rest (log_call path st) /\
  actual_total (log_call path st) = actual_total st /\
  chosen_actual (log_call path st) = chosen_actual st.
Proof.
  intros Hlt Hfit Henc. simpl.
  rewrite (proj2 (Z.leb_gt _ _) Hlt), (proj2 (Z.ltb_ge _ _) Hfit), Henc.
  done.
Qed.

Lemma pack_pass_encode_failure_skipped_witness :
  actual_total init_pack_state < 10 /\ actual_total init_pack_state + 3 <= 10 /\
  (fun _ : string => @None bytes) "a.jpg"%string = None /\
  pack_pass (fun _ => None) 10 [("a.jpg", 3); ("b.jpg", 2)]%string init_pack_state
  = pack_pass (fun _ => None) 10 [("b.jpg", 2)]%string (log_call "a.jpg" init_pack_state) /\
  actual_total (log_call "a.jpg" init_pack_state) = actual_total init_pack_state /\
  chosen_actual (log_call "a.jpg" init_pack_state) = chosen_actual init_pack_state.
Proof.
  assert (H1 : actual_total init_pack_state < 10) by (simpl; lia).
  assert (H2 : actual_total init_pack_state + 3 <= 10) by (simpl; lia).
  assert (H3 : (fun _ : string => @None bytes) "a.jpg"%string = None) by reflexivity.
  split; [exact H1|]. split; [exact H2|]. split; [exact H3|].
  exact (pack_pass_encode_failure_skipped (fun _ => None) 10 "a.jpg" 3 _ init_pack_state H1 H2 H3).
Defined.

(** ** Claim C10 *)

(** C10: when the selector chooses nothing, [process_images] returns at once:
    no codec call, nothing committed, the file system unchanged; in
    particular Pass B is not attempted over [remaining], whatever it holds
    and whatever the budget. *)
Theorem process_images_nothing_chosen (shuffle1 shuffle2 : Shuffle)
    (all_images : list string) (getsize : string -> option Z)
    (encode : string -> option bytes) (write_ok : string -> bool)
    (source_dir compressed_dir : string) (fs : gmap string bytes)
    (max_dir_size_gb quality : Q) :
  fst (choose_random_subset_by_size shuffle1 all_images getsize max_dir_size_gb quality) = [] ->
  process_images shuffle1 shuffle2 all_images getsize encode write_ok
    source_dir compressed_dir fs max_dir_size_gb quality
  = (mk_pack_state 0 [] [], fs).
Proof.
  intros Hnone. unfold process_images.
  destruct (choose_random_subset_by_size _ _ _ _ _) as [ch rem]. simpl in Hnone.
  by subst ch.
Qed.

(** A run with a positive budget (10 bytes) and a non-empty [remaining]. *)
Lemma process_images_nothing_chosen_witness :
  0 < max_bytes_of (10 # 1073741824) /\
  snd (choose_random_subset_by_size id ["a.jpg"]%string (fun _ => Some 1000)
         (10 # 1073741824) 300) <> [] /\
  fst (choose_random_subset_by_size id ["a.jpg"]%string (fun _ => Some 1000)
         (10 # 1073741824) 300) = [] /\
  process_images id id ["a.jpg"]%string (fun _ => Some 1000) (fun _ => Some [Byte.x00])
    (fun _ => true) "/src" "/out/compressed" ∅ (10 # 1073741824) 300
  = (mk_pack_state 0 [] [], ∅).
Proof.
  assert (H : fst (choose_random_subset_by_size id ["a.jpg"]%string (fun _ => Some 1000)
                     (10 # 1073741824) 300) = []) by reflexivity.
  split; [vm_compute; reflexivity|]. split; [vm_compute; discriminate|].
  split; [exact H|].
  exact (process_images_nothing_chosen id id _ _ (fun _ => Some [Byte.x00]) (fun _ => true)
           "/src" "/out/compressed" ∅ _ _ H).
Defined.

(** ** Claim C7 *)

Lemma py_round_cases (x : Q) :
  let f := Qfloor x in
  ((x - inject_Z f < 1#2)%Q /\ py_round x = f) \/
  ((1#2 < x - inject_Z f)%Q /\ py_round x = f + 1) \/
  ((x - inject_Z f == 1#2)%Q /\ py_round x = (if Z.even f then f else f + 1)).
Proof.
  intros f. unfold py_round. fold f.
  destruct (Qcompare (x - inject_Z f) (1#2)) eqn:E.
  - right; right. split; [by apply Qeq_alt|done].
  - left. split; [by apply Qlt_alt|done].
  - right; left. split; [by apply Qgt_alt|done].
Qed.

Lemma Q2_neq0 : ~ (2 == 0)%Q.
Proof. unfold Qeq. simpl. lia. Qed.

Lemma pow2_pos (e : Z) : (0 < 2 ^ e)%Q.
Proof. apply Qpower_0_lt. unfold Qlt. simpl. lia. Qed.

Lemma pow2_le (a b : Z) : a <= b -> (2 ^ a <= 2 ^ b)%Q.
Proof. intros H. apply Qpower_le_compat_l; [done|]. unfold Qle. simpl. lia. Qed.

Lemma pow2_add (a b : Z) : (2 ^ (a + b) == 2 ^ a * 2 ^ b)%Q.
Proof. apply Qpower_plus, Q2_neq0. Qed.

Lemma pow2_Z (a : Z) : 0 <= a -> (2 ^ a == inject_Z (2 ^ a))%Q.
Proof. intros H. symmetry. apply (Zpower_Qpower 2 a H). Qed.

Lemma pow2_ratio (a b : Z) :
  0 <= a -> 0 <= b -> (2 ^ (a - b) == Qmake (2 ^ a) (Z.to_pos (2 ^ b)))%Q.
Proof.
  intros Ha Hb. rewrite Qpower_minus by apply Q2_neq0.
  rewrite !pow2_Z by done. rewrite Qmake_Qdiv. rewrite Z2Pos.id; [done|].
  apply Z.pow_pos_nonneg; lia.
Qed.

Lemma Qlog2_floor_spec (x : Q) :
  (0 < x)%Q -> (2 ^ Qlog2_floor x <= x < 2 ^ (Qlog2_floor x + 1))%Q.
Proof.
  destruct x as [n d]. intros Hx.
  assert (Hn : 0 < n) by (unfold Qlt in Hx; simpl in Hx; lia).
  unfold Qlog2_floor. cbn [Qnum Qden].
  set (a := Z.log2 n). set (b := Z.log2 (Zpos d)).
  pose proof (Z.log2_spec n Hn) as [Ha1 Ha2].
  assert (Hd : 0 < Zpos d) by lia.
  pose proof (Z.log2_spec _ Hd) as [Hb1 Hb2].
  fold a in Ha1, Ha2. fold b in Hb1, Hb2. unfold Z.succ in *.
  assert (Ha : 0 <= a) by apply Z.log2_nonneg.
  assert (Hb : 0 <= b) by apply Z.log2_nonneg.
  assert (HB : 0 < 2 ^ b) by (apply Z.pow_pos_nonneg; lia).
  assert (HB1 : 0 < 2 ^ (b + 1)) by (apply Z.pow_pos_nonneg; lia).
  assert (Hup : (n # d < 2 ^ (a - b + 1))%Q).
  { replace (a - b + 1) with ((a + 1) - b) by ring.
    rewrite pow2_ratio by lia. unfold Qlt. cbn [Qnum Qden].
    rewrite Z2Pos.id by done. nia. }
  assert (Hlow : (2 ^ (a - b - 1) < n # d)%Q).
  { replace (a - b - 1) with (a - (b + 1)) by ring.
    rewrite pow2_ratio by lia. unfold Qlt. cbn [Qnum Qden].
    rewrite Z2Pos.id by done. nia. }
  destruct (Qlt_le_dec (n # d) (2 ^ (a - b))) as [Hlt|Hle].
  - replace (a - b - 1 + 1) with (a - b) by ring. split; [by apply Qlt_le_weak|done].
  - done.
Qed.

Lemma Qlog2_floor_mono (x y : Q) :
  (0 < x)%Q -> (x <= y)%Q -> Qlog2_floor x <= Qlog2_floor y.
Proof.
  intros Hx Hxy.
  pose proof (Qlog2_floor_spec x Hx) as [Hx1 _].
  pose proof (Qlog2_floor_spec y (Qlt_le_trans _ _ _ Hx Hxy)) as [_ Hy2].
  destruct (Z_le_gt_dec (Qlog2_floor x) (Qlog2_floor y)) as [|Hgt]; [done|exfalso].
  pose proof (pow2_le (Qlog2_floor y + 1) (Qlog2_floor x) ltac:(lia)). lra.
Qed.

Lemma py_round_near (x : Q) :
  (-(1#2) <= x - inject_Z (py_round x) <= 1#2)%Q /\
  ((x - inject_Z (py_round x) == 1#2)%Q \/ (x - inject_Z (py_round x) == -(1#2))%Q ->
   Z.even (py_round x) = true).
Proof.
  pose proof (Qfloor_le x) as Hle. pose proof (Qlt_floor x) as Hlt.
  rewrite inject_Z_plus in Hlt. change (inject_Z 1) with 1%Q in Hlt.
  destruct (py_round_cases x) as [[Hr ->]|[[Hr ->]|[Hr ->]]];
    set (f := Qfloor x) in *.
  - split; [lra|]. intros [H|H]; lra.
  - rewrite inject_Z_plus. change (inject_Z 1) with 1%Q. split; [lra|]. intros [H|H]; lra.
  - destruct (Z.even f) eqn:Ev.
    + split; [lra|]. done.
    + rewrite inject_Z_plus. change (inject_Z 1) with 1%Q. split; [lra|]. intros _.
      rewrite Z.even_add, Ev. done.
Qed.

Lemma py_round_mono (s t : Q) : (s <= t)%Q -> py_round s <= py_round t.
Proof.
  intros Hst.
  destruct (py_round_near s) as [Hs Es]. destruct (py_round_near t) as [Ht Et].
  set (rs := py_round s) in *. set (rt := py_round t) in *.
  destruct (Z_le_gt_dec rs rt) as [|Hgt]; [done|exfalso].
  assert (H1 : (inject_Z rt + 1 <= inject_Z rs)%Q).
  { change 1%Q with (inject_Z 1). rewrite <- inject_Z_plus, <- Zle_Qle. lia. }
  assert (Hes : Z.even rs = true) by (apply Es; right; lra).
  assert (Het : Z.even rt = true) by (apply Et; left; lra).
  assert (H2 : (inject_Z rs <= inject_Z (rt + 1))%Q).
  { rewrite inject_Z_plus. change (inject_Z 1) with 1%Q. lra. }
  rewrite <- Zle_Qle in H2. assert (rs = rt + 1) as Hr by lia.
  rewrite Hr, Z.even_add, Het in Hes. discriminate.
Qed.

Lemma py_round_Z (m : Z) : py_round (inject_Z m) = m.
Proof.
  unfold py_round. rewrite Qfloor_Z.
  assert (H : (inject_Z m - inject_Z m < 1#2)%Q) by lra.
  by rewrite (proj1 (Qlt_alt _ _) H).
Qed.

Lemma py_round_le (t : Q) (m : Z) : (t <= inject_Z m)%Q -> py_round t <= m.
Proof. intros H. rewrite <- (py_round_Z m). by apply py_round_mono. Qed.

Lemma py_round_ge (t : Q) (m : Z) : (inject_Z m <= t)%Q -> m <= py_round t.
Proof. intros H. rewrite <- (py_round_Z m). by apply py_round_mono. Qed.

Lemma round_pos_upper (x : Q) :
  (0 < x)%Q -> (round_pos x <= 2 ^ (ulp_exp x + 53))%Q.
Proof.
  intros Hx. pose proof (Qlog2_floor_spec x Hx) as [_ Hx2].
  unfold round_pos. set (u := ulp_exp x).
  assert (Hu : Qlog2_floor x + 1 <= u + 53) by (unfold u, ulp_exp; lia).
  pose proof (pow2_le _ _ Hu) as Hp. pose proof (pow2_pos u) as Hpu.
  assert (Hq : (x / 2 ^ u <= inject_Z (2 ^ 53))%Q).
  { apply Qle_shift_div_r; [done|].
    rewrite <- pow2_Z by lia. rewrite <- pow2_add. rewrite Z.add_comm. lra. }
  apply py_round_le in Hq.
  rewrite Z.add_comm, pow2_add, (pow2_Z 53) by lia.
  apply Qmult_le_compat_r; [by rewrite <- Zle_Qle|lra].
Qed.

Lemma round_pos_lower (x : Q) :
  (0 < x)%Q -> (2 ^ (ulp_exp x + 52) <= x)%Q -> (2 ^ (ulp_exp x + 52) <= round_pos x)%Q.
Proof.
  intros Hx Hlow.
  unfold round_pos. set (u := ulp_exp x) in *. pose proof (pow2_pos u) as Hpu.
  assert (Hq : (inject_Z (2 ^ 52) <= x / 2 ^ u)%Q).
  { apply Qle_shift_div_l; [done|].
    rewrite <- pow2_Z by lia. rewrite <- pow2_add. rewrite Z.add_comm. lra. }
  apply py_round_ge in Hq.
  rewrite Z.add_comm, pow2_add, (pow2_Z 52) by lia.
  apply Qmult_le_compat_r; [by rewrite <- Zle_Qle|lra].
Qed.

Lemma round_pos_nonneg (x : Q) : (0 < x)%Q -> (0 <= round_pos x)%Q.
Proof.
  intros Hx. unfold round_pos. set (u := ulp_exp x). pose proof (pow2_pos u) as Hpu.
  assert (Hq : (inject_Z 0 <= x / 2 ^ u)%Q).
  { apply Qle_shift_div_l; [done|]. change (inject_Z 0) with 0%Q. lra. }
  apply py_round_ge in Hq.
  apply Qmult_le_0_compat; [|lra].
  change 0%Q with (inject_Z 0). by rewrite <- Zle_Qle.
Qed.

Lemma round_pos_mono (x y : Q) :
  (0 < x)%Q -> (x <= y)%Q -> (round_pos x <= round_pos y)%Q.
Proof.
  intros Hx Hxy. assert (Hy : (0 < y)%Q) by lra.
  pose proof (Qlog2_floor_mono x y Hx Hxy) as Hl.
  assert (Hu : ulp_exp x <= ulp_exp y) by (unfold ulp_exp; lia).
  destruct (Z.eq_dec (ulp_exp x) (ulp_exp y)) as [Heq|Hne].
  - unfold round_pos. rewrite Heq. set (u := ulp_exp y).
    pose proof (pow2_pos u) as Hpu.
    apply Qmult_le_compat_r; [|lra]. rewrite <- Zle_Qle. apply py_round_mono.
    unfold Qdiv. apply Qmult_le_compat_r; [done|]. apply Qinv_le_0_compat. lra.
  - assert (Hyu : ulp_exp y = Qlog2_floor y - 52) by (unfold ulp_exp in *; lia).
    pose proof (Qlog2_floor_spec y Hy) as [Hy1 _].
    assert (Hy52 : (2 ^ (ulp_exp y + 52) <= y)%Q).
    { rewrite Hyu. by replace (Qlog2_floor y - 52 + 52) with (Qlog2_floor y) by ring. }
    pose proof (round_pos_upper x Hx). pose proof (round_pos_lower y Hy Hy52).
    pose proof (pow2_le (ulp_exp x + 53) (ulp_exp y + 52) ltac:(lia)). lra.
Qed.

Lemma round64_mono (x y : Q) : (x <= y)%Q -> (round64 x <= round64 y)%Q.
Proof.
  intros Hxy. unfold round64.
  destruct (Qcompare x 0) eqn:Ex; destruct (Qcompare y 0) eqn:Ey;
    repeat match goal with
    | H : (_ ?= _)%Q = Eq |- _ => apply Qeq_alt in H
    | H : (_ ?= _)%Q = Lt |- _ => apply Qlt_alt in H
    | H : (_ ?= _)%Q = Gt |- _ => apply Qgt_alt in H
    end; try lra;
    try pose proof (round_pos_nonneg (- x) ltac:(lra));
    try pose proof (round_pos_nonneg y ltac:(lra));
    try pose proof (round_pos_mono (- y) (- x) ltac:(lra) ltac:(lra));
    try pose proof (round_pos_mono x y ltac:(lra) Hxy); lra.
Qed.

Lemma py_max_spec (a b : Q) : (a <= py_max a b)%Q /\ (b <= py_max a b)%Q.
Proof. unfold py_max. destruct (Qlt_le_dec a b); lra. Qed.

Lemma py_max_mono (a b c : Q) : (b <= c)%Q -> (py_max a b <= py_max a c)%Q.
Proof. unfold py_max. destruct (Qlt_le_dec a b), (Qlt_le_dec a c); lra. Qed.

(** Overflow cannot occur in the division of line 78. *)
Lemma float_div_300_finite (a : Q) :
  (Qabs a < 2 ^ 1024)%Q -> (Qabs (float_div a 300) < 2 ^ 1024)%Q.
Proof.
  intros Ha. apply Qabs_Qlt_condition in Ha. apply Qabs_Qlt_condition.
  assert (Hb : (2 ^ 1024 == 256 * 2 ^ 1016)%Q) by (vm_compute; reflexivity).
  assert (R1 : (round64 (2 ^ 1016) == 2 ^ 1016)%Q) by (vm_compute; reflexivity).
  assert (R2 : (round64 (- 2 ^ 1016) == - 2 ^ 1016)%Q) by (vm_compute; reflexivity).
  pose proof (pow2_pos 1016).
  unfold float_div, Qdiv. change (/ 300)%Q with (1 # 300)%Q.
  pose proof (round64_mono (a * (1 # 300)) (2 ^ 1016) ltac:(lra)).
  pose proof (round64_mono (- 2 ^ 1016) (a * (1 # 300)) ltac:(lra)).
  lra.
Qed.

(** C7: on doubles, [compression_factor = max(0.01, float(quality) / 300.0)]
    is monotone in the quality, and never below (the double) 0.01, for every
    quality whose conversion [float(quality)] does not raise. *)
Theorem compression_factor_monotone (q1 q2 f1 f2 : Q) :
  (q1 <= q2)%Q ->
  compression_factor_f64 q1 = Some f1 -> compression_factor_f64 q2 = Some f2 ->
  (f1 <= f2)%Q /\ (float_0_01 <= f1)%Q /\ (float_0_01 <= f2)%Q.
Proof.
  intros Hq. unfold compression_factor_f64, py_float.
  destruct (Qlt_le_dec _ _); [|done]. destruct (Qlt_le_dec _ _); [|done].
  intros [= <-] [= <-]. split_and!; [|apply py_max_spec..].
  apply py_max_mono, round64_mono. unfold Qdiv. apply Qmult_le_compat_r.
  - by apply round64_mono.
  - unfold Qle. simpl. lia.
Qed.

Lemma compression_factor_monotone_witness :
  (15 <= 75)%Q /\
  compression_factor_f64 15 = Some (7205759403792794 # 144115188075855872) /\
  compression_factor_f64 75 = Some (4503599627370496 # 18014398509481984) /\
  ((7205759403792794 # 144115188075855872) <= 4503599627370496 # 18014398509481984)%Q /\
  (float_0_01 <= 7205759403792794 # 144115188075855872)%Q /\ (float_0_01 <= 4503599627370496 # 18014398509481984)%Q.
Proof.
  assert (H : (15 <= 75)%Q) by (unfold Qle; simpl; lia).
  assert (E1 : compression_factor_f64 15 = Some (7205759403792794 # 144115188075855872))
    by (vm_compute; reflexivity).
  assert (E2 : compression_factor_f64 75 = Some (4503599627370496 # 18014398509481984)) by (vm_compute; reflexivity).
  do 3 (split; [assumption|]).
  exact (compression_factor_monotone 15 75 _ _ H E1 E2).
Defined.

(** ** Claim C8 *)

Lemma scan_sizes_const (size : Z) (paths : list string) :
  scan_sizes (fun _ => Some size) paths = map (fun p => (p, size)) paths.
Proof. induction paths as [|p paths IH]; simpl; [done|]. by rewrite IH. Qed.

Lemma add_unprocessed_elem (f : Q) (l ch rem : list item) (x : item) :
  x ∈ add_unprocessed f l ch rem -> x ∈ rem \/ exists y, y ∈ l /\ x = est_item f y.
Proof.
  revert rem. induction l as [|[p o] l IH]; intros rem Hx; simpl in Hx; [by left|].
  apply IH in Hx as [Hx|(y & Hy & ->)].
  - destruct (_ && _); [|by left].
    apply elem_of_app in Hx as [Hx|Hx]; [by left|].
    apply list_elem_of_singleton in Hx as ->. right. exists (p, o). split; [by left|done].
  - right. exists y. split; [by right|done].
Qed.

(** Ten items of 10MB at quality 75 against a 12MB budget: the loop admits
    the first four (10MB estimated in total), rejects the rest. *)
Lemma select_loop_ten_images (l : list item) :
  length l = 10%nat -> (forall x, x ∈ l -> snd x = 10485760) ->
  exists ch rem,
    select_loop (compression_factor 75) 12582912 l [] [] 0 = (ch, rem, 10485760) /\
    length ch = 4%nat /\ (forall x, x ∈ rem -> snd x = 2621440).
Proof.
  intros Hlen Hall.
  assert (Hest : estimate (compression_factor 75) 10485760 = 2621440) by reflexivity.
  assert (HF : Forall (fun x : item => snd x = 10485760) l) by (apply Forall_forall; exact Hall).
  clear Hall.
  do 10 (destruct l as [|[? ?] l]; [discriminate|]).
  destruct l; [|discriminate].
  repeat match goal with H : Forall _ (_ :: _) |- _ => apply Forall_cons in H as [? H] end.
  simpl in *. subst.
  cbn -[estimate compression_factor]. rewrite !Hest. cbn.
  eexists _, _. split; [reflexivity|]. split; [reflexivity|].
  intros x Hx. repeat (apply elem_of_cons in Hx as [->|Hx]; [done|]).
  by apply not_elem_of_nil in Hx.
Qed.

(** C8: with ten candidate files of 10MB each (10485760 bytes), quality 75
    (factor 0.25, estimate 2621440 bytes each) and a 12MB budget
    ([max_dir_size_gb = 12/1024], 12582912 bytes), for every shuffle order the
    selector admits 4 or 5 items (in fact always exactly 4); their estimated
    total is within 12MB, and adding any item left out (in particular the
    next one in shuffle order) would exceed it. *)
Theorem selector_ten_images_scenario (paths : list string) (shuffle : Shuffle) :
  length paths = 10%nat ->
  (forall l, shuffle l ≡ₚ l) ->
  let '(chosen, remaining) :=
    choose_random_subset_by_size shuffle paths (fun _ => Some 10485760) (12 # 1024) 75 in
  (length chosen = 4%nat \/ length chosen = 5%nat) /\ length chosen = 4%nat /\
  sum_sizes chosen <= max_bytes_of (12 # 1024) /\
  (forall x, x ∈ remaining -> sum_sizes chosen + snd x > max_bytes_of (12 # 1024)).
Proof.
  intros Hlen Hsh. destruct paths as [|p0 ps]; [discriminate|].
  rewrite choose_nonempty_unfold by done. cbv zeta.
  assert (Hm : max_bytes_of (12 # 1024) = 12582912) by reflexivity. rewrite Hm.
  assert (Hest : estimate (compression_factor 75) 10485760 = 2621440) by reflexivity.
  set (l := shuffle (scan_sizes _ (p0 :: ps))).
  assert (Hl : l ≡ₚ map (fun p => (p, 10485760)) (p0 :: ps))
    by (subst l; rewrite Hsh, scan_sizes_const; reflexivity).
  assert (Hall : forall x, x ∈ l -> snd x = 10485760).
  { intros x Hx. rewrite Hl in Hx. apply list_elem_of_In, in_map_iff in Hx as [p [<- _]].
    done. }
  assert (Hlen' : length l = 10%nat) by (rewrite Hl, length_map; exact Hlen).
  destruct (select_loop_ten_images l Hlen' Hall) as (ch & rem & Hrun & Hch & Hrem).
  rewrite Hrun.
  destruct (select_loop_total _ _ _ _ _ _ _ _ _ Hrun eq_refl) as [Hs _].
  split; [by left|]. split; [done|]. split; [lia|].
  intros x Hx. apply add_unprocessed_elem in Hx as [Hx|(y & Hy & ->)].
  - rewrite (Hrem x Hx). lia.
  - unfold est_item. simpl. rewrite (Hall y Hy), Hest. lia.
Qed.

Lemma selector_ten_images_scenario_witness :
  length ["0.jpg"; "1.jpg"; "2.jpg"; "3.jpg"; "4.jpg"; "5.jpg"; "6.jpg"; "7.jpg"; "8.jpg"; "9.jpg"]%string
    = 10%nat /\
  (forall l : list item, rev l ≡ₚ l) /\
  let '(chosen, remaining) :=
    choose_random_subset_by_size (@rev item)
      ["0.jpg"; "1.jpg"; "2.jpg"; "3.jpg"; "4.jpg"; "5.jpg"; "6.jpg"; "7.jpg"; "8.jpg"; "9.jpg"]%string
      (fun _ => Some 10485760) (12 # 1024) 75 in
  (length chosen = 4%nat \/ length chosen = 5%nat) /\ length chosen = 4%nat /\
  sum_sizes chosen <= max_bytes_of (12 # 1024) /\
  (forall x, x ∈ remaining -> sum_sizes chosen + snd x > max_bytes_of (12 # 1024)).
Proof.
  assert (H1 : length ["0.jpg"; "1.jpg"; "2.jpg"; "3.jpg"; "4.jpg"; "5.jpg"; "6.jpg"; "7.jpg";
                       "8.jpg"; "9.jpg"]%string = 10%nat) by reflexivity.
  assert (H2 : forall l : list item, rev l ≡ₚ l) by (intros l; symmetry; apply Permutation_rev).
  split; [exact H1|]. split; [exact H2|].
  exact (selector_ten_images_scenario _ (@rev item) H1 H2).
Defined.

(** ** Claim C9 *)

Lemma string_length_app (s1 s2 : string) :
  String.length (s1 +:+ s2) = (String.length s1 + String.length s2)%nat.
Proof. induction s1; simpl; auto. Qed.

Lemma string_app_cancel_r (s1 s2 e : string) : s1 +:+ e = s2 +:+ e -> s1 = s2.
Proof.
  revert s2. induction s1 as [|c s1 IH]; intros [|c' s2] H; simpl in H; try done.
  - exfalso. apply (f_equal String.length) in H. rewrite !string_length_app in H. simpl in H. lia.
  - exfalso. apply (f_equal String.length) in H. rewrite !string_length_app in H. simpl in H. lia.
  - injection H as -> H. f_equal. by apply IH.
Qed.

Lemma suffixed_inj (base_name ext : string) (n1 n2 : Z) :
  suffixed base_name n1 ext = suffixed base_name n2 ext -> n1 = n2.
Proof.
  unfold suffixed. intros H.
  apply (inj (String.append base_name)), (inj (String.append "_")) in H.
  apply string_app_cancel_r in H. by apply (inj pretty).
Qed.

(** Whether a candidate name starts with ["/"] does not depend on the suffix. *)
Lemma prefix_slash_suffixed (base_name ext : string) (n : Z) :
  String.prefix "/" (suffixed base_name n ext) = String.prefix "/" (base_name +:+ "_").
Proof.
  unfold suffixed. destruct base_name as [|a [|b c]]; simpl; try done;
    by destruct (Ascii.ascii_dec _ _).
Qed.

Lemma path_join_suffixed_inj (dir base_name ext : string) (n1 n2 : Z) :
  path_join dir (suffixed base_name n1 ext) = path_join dir (suffixed base_name n2 ext) ->
  n1 = n2.
Proof.
  unfold path_join. rewrite !prefix_slash_suffixed.
  destruct (String.prefix "/" _); [apply suffixed_inj|].
  destruct (_ || _); intros H; apply suffixed_inj with base_name ext;
    [exact (inj (String.append dir) _ _ H)|].
  by apply (inj (String.append dir)), (inj (String.append "/")) in H.
Qed.

(** If the suffix found names an existing path, all the candidates the loop
    tried did too. *)
Lemma find_suffix_taken (fs : gmap string bytes) (dir base_name ext : string)
    (fuel : nat) (suffix : Z) :
  is_Some (fs !! path_join dir (suffixed base_name (find_suffix fs dir base_name ext suffix fuel) ext)) ->
  forall k, (k <= fuel)%nat ->
  is_Some (fs !! path_join dir (suffixed base_name (suffix + Z.of_nat k) ext)).
Proof.
  revert suffix. induction fuel as [|fuel IH]; intros suffix Hsome k Hk; simpl in Hsome.
  - assert (k = 0%nat) as -> by lia. by rewrite Z.add_0_r.
  - case_bool_decide as Hex.
    + destruct k as [|k]; [by rewrite Z.add_0_r|].
      replace (suffix + Z.of_nat (S k)) with (suffix + 1 + Z.of_nat k) by lia.
      apply IH; [exact Hsome|lia].
    + done.
Qed.

(** [size fs] iterations of the [while] loop always reach a free path: the
    [size fs + 1] candidates are distinct paths, they cannot all exist. *)
Lemma find_suffix_free (fs : gmap string bytes) (dir base_name ext : string) :
  fs !! path_join dir (suffixed base_name (find_suffix fs dir base_name ext 1 (size fs)) ext)
  = None.
Proof.
  destruct (fs !! _) eqn:Hl; [exfalso|done].
  pose proof (find_suffix_taken fs dir base_name ext (size fs) 1 (mk_is_Some _ _ Hl)) as Hall.
  set (cands := map (fun k => path_join dir (suffixed base_name (1 + Z.of_nat k) ext))
                  (seq 0 (S (size fs)))).
  assert (Hnd : NoDup cands).
  { apply (NoDup_fmap_2_strong (fun k => path_join dir (suffixed base_name (1 + Z.of_nat k) ext)));
      [|apply NoDup_seq].
    intros k1 k2 _ _ H. apply path_join_suffixed_inj in H. lia. }
  assert (Hsub : list_to_set cands ⊆@{gset string} dom fs).
  { intros q Hq. apply elem_of_list_to_set in Hq.
    apply list_elem_of_In, in_map_iff in Hq as [k [<- Hk]]. apply in_seq in Hk.
    apply elem_of_dom, Hall. lia. }
  apply subseteq_size in Hsub. rewrite size_list_to_set in Hsub by exact Hnd.
  rewrite size_dom in Hsub. subst cands. rewrite length_map, length_seq in Hsub. lia.
Qed.

(** The writer always picks a path that does not exist yet. *)
Lemma resolve_out_path_fresh (fs : gmap string bytes) (compressed_dir out_name : string) :
  fs !! resolve_out_path fs compressed_dir out_name = None.
Proof.
  unfold resolve_out_path. case_bool_decide as Hex.
  - destruct (splitext out_name) as [base_name ext]. apply find_suffix_free.
  - by apply eq_None_not_Some.
Qed.

(** C9: two items written one after the other under the same generated
    file name (as [write_loop] does through [write_file]) end up in two
    distinct files, each holding its own data, and no file that existed
    before is overwritten. *)
Theorem write_file_collision_distinct (write_ok : string -> bool)
    (compressed_dir out_name : string) (data1 data2 : bytes) (fs fs1 fs2 : gmap string bytes)
    (p1 p2 : string) :
  write_file write_ok compressed_dir out_name data1 fs = (Some p1, fs1) ->
  write_file write_ok compressed_dir out_name data2 fs1 = (Some p2, fs2) ->
  p1 <> p2 /\ fs2 !! p1 = Some data1 /\ fs2 !! p2 = Some data2 /\
  (forall q, is_Some (fs !! q) -> fs2 !! q = fs !! q).
Proof.
  unfold write_file. intros H1 H2.
  pose proof (resolve_out_path_fresh fs compressed_dir out_name) as F1.
  pose proof (resolve_out_path_fresh fs1 compressed_dir out_name) as F2.
  destruct (write_ok (resolve_out_path fs compressed_dir out_name)); [|discriminate].
  injection H1 as <- <-.
  destruct (write_ok (resolve_out_path (<[_:=data1]> fs) compressed_dir out_name)); [|discriminate].
  injection H2 as <- <-.
  set (p1 := resolve_out_path fs compressed_dir out_name) in *.
  set (p2 := resolve_out_path (<[p1:=data1]> fs) compressed_dir out_name) in *.
  assert (Hne : p1 <> p2).
  { intros Heq. rewrite <- Heq, lookup_insert_eq in F2. discriminate. }
  split; [done|]. split; [by rewrite lookup_insert_ne, lookup_insert_eq|].
  split; [by rewrite lookup_insert_eq|].
  intros q [v Hq].
  assert (q <> p1) by (intros ->; congruence).
  assert (q <> p2) by (intros ->; rewrite lookup_insert_ne in F2 by done; congruence).
  by rewrite !lookup_insert_ne.
Qed.

Lemma write_file_collision_distinct_witness :
  let fs1 := <[ "/o/compressed/1_root_x.png"%string := [Byte.x01] ]> (∅ : gmap string bytes) in
  let fs2 := <[ "/o/compressed/1_root_x_1.png"%string := [Byte.x02] ]> fs1 in
  write_file (fun _ => true) "/o/compressed" "1_root_x.png" [Byte.x01] ∅
    = (Some "/o/compressed/1_root_x.png"%string, fs1) /\
  write_file (fun _ => true) "/o/compressed" "1_root_x.png" [Byte.x02] fs1
    = (Some "/o/compressed/1_root_x_1.png"%string, fs2) /\
  "/o/compressed/1_root_x.png"%string <> "/o/compressed/1_root_x_1.png"%string /\
  fs2 !! "/o/compressed/1_root_x.png"%string = Some [Byte.x01] /\
  fs2 !! "/o/compressed/1_root_x_1.png"%string = Some [Byte.x02] /\
  (forall q, is_Some ((∅ : gmap string bytes) !! q) -> fs2 !! q = (∅ : gmap string bytes) !! q).
Proof.
  intros fs1 fs2.
  assert (H1 : write_file (fun _ => true) "/o/compressed" "1_root_x.png" [Byte.x01] ∅
               = (Some "/o/compressed/1_root_x.png"%string, fs1)) by reflexivity.
  assert (H2 : write_file (fun _ => true) "/o/compressed" "1_root_x.png" [Byte.x02] fs1
               = (Some "/o/compressed/1_root_x_1.png"%string, fs2)) by reflexivity.
  split; [exact H1|]. split; [exact H2|].
  exact (write_file_collision_distinct _ _ _ _ _ _ _ _ _ _ H1 H2).
Defined.

(** * Further properties of the program *)

(** ** Writing and the output file system *)

Lemma write_file_effect (write_ok : string -> bool) (dir name : string) (data : bytes)
    (fs fs' : gmap string bytes) (r : option string) :
  write_file write_ok dir name data fs = (r, fs') ->
  (exists p, r = Some p /\ fs !! p = None /\ fs' = <[p := data]> fs) \/ (r = None /\ fs' = fs).
Proof.
  unfold write_file. destruct (write_ok _); intros [= <- <-].
  - left. eexists. split_and!; [done|apply resolve_out_path_fresh|done].
  - by right.
Qed.

Lemma dir_bytes_insert_fresh (fs : gmap string bytes) (p : string) (data : bytes) :
  fs !! p = None -> dir_bytes (<[p := data]> fs) = Z.of_nat (length data) + dir_bytes fs.
Proof.
  intros Hp. unfold dir_bytes. rewrite map_fold_insert_L; [done| |done].
  intros. lia.
Qed.

Lemma sum_lengths_cons (x : string * bytes) (l : list (string * bytes)) :
  sum_lengths (x :: l) = Z.of_nat (length (snd x)) + sum_lengths l.
Proof. reflexivity. Qed.

Lemma write_loop_spec (write_ok : string -> bool) (source_dir compressed_dir : string)
    (pad : nat) (items : list (string * bytes)) (count : Z) (fs : gmap string bytes) :
  let '(count', fs') := write_loop write_ok source_dir compressed_dir pad items count fs in
  (forall q, is_Some (fs !! q) -> fs' !! q = fs !! q) /\
  Z.of_nat (size fs') = Z.of_nat (size fs) + (count' - count) /\
  count <= count' <= count + Z.of_nat (length items) /\
  dir_bytes fs <= dir_bytes fs' <= dir_bytes fs + sum_lengths items /\
  (forall q v, fs !! q = None -> fs' !! q = Some v -> exists o, (o, v) ∈ items) /\
  ((forall p, write_ok p = true) ->
   count' = count + Z.of_nat (length items) /\ dir_bytes fs' = dir_bytes fs + sum_lengths items).
Proof.
  revert count fs. induction items as [|[o d] items IH]; intros count fs; cbn [write_loop].
  - unfold sum_lengths; simpl. split_and!; try lia; try done.
    intros q v Hq Hv. congruence.
  - destruct (write_file write_ok compressed_dir (out_name_of source_dir pad count o) d fs)
      as [r fs1] eqn:Hw.
    destruct (write_file_effect _ _ _ _ _ _ _ Hw) as [(p & -> & Hp & ->)|[-> ->]].
    + specialize (IH (count + 1) (<[p := d]> fs)).
      destruct (write_loop _ _ _ _ items (count + 1) _) as [c' fs'].
      destruct IH as (Hpres & Hsize & Hcnt & Hbytes & Hnew & Hall).
      rewrite dir_bytes_insert_fresh in Hbytes, Hall by done.
      rewrite map_size_insert_None in Hsize by done.
      rewrite sum_lengths_cons. cbn [length snd].
      split_and!.
      * intros q Hq. assert (q <> p) by (intros ->; rewrite Hp in Hq; by destruct Hq).
        rewrite Hpres by (rewrite lookup_insert_ne by done; done).
        by rewrite lookup_insert_ne.
      * lia.
      * lia.
      * lia.
      * lia.
      * lia.
      * intros q v Hq Hv. destruct (decide (q = p)) as [->|Hne].
        -- rewrite Hpres in Hv by (rewrite lookup_insert_eq; eauto).
           rewrite lookup_insert_eq in Hv. injection Hv as <-.
           exists o. apply elem_of_cons. by left.
        -- destruct (Hnew q v) as [o' Ho']; [by rewrite lookup_insert_ne|done|].
           exists o'. apply elem_of_cons. by right.
      * intros Hok. destruct (Hall Hok). lia.
    + specialize (IH count fs).
      destruct (write_loop _ _ _ _ items count _) as [c' fs'].
      destruct IH as (Hpres & Hsize & Hcnt & Hbytes & Hnew & Hall).
      rewrite sum_lengths_cons. cbn [length snd].
      split_and!; try done; try lia.
      * intros q v Hq Hv. destruct (Hnew q v Hq Hv) as [o' Ho'].
        exists o'. apply elem_of_cons. by right.
      * intros Hok. unfold write_file in Hw. rewrite Hok in Hw. discriminate.
Qed.

(** ** Ordering of the output *)

Lemma insert_by_key_perm {A} (key : A -> string * string) (x : A) (l : list A) :
  insert_by_key key x l ≡ₚ x :: l.
Proof.
  induction l as [|y l IH]; simpl; [done|].
  destruct (key_lt (key x) (key y)); [done|].
  rewrite IH. constructor.
Qed.

Lemma sorted_by_key_perm {A} (key : A -> string * string) (l : list A) :
  sorted_by_key key l ≡ₚ l.
Proof.
  unfold sorted_by_key.
  assert (H : forall acc, fold_left (fun acc x => insert_by_key key x acc) l acc ≡ₚ l ++ acc).
  { induction l as [|x l IH]; intros acc; simpl; [done|].
    rewrite IH, insert_by_key_perm. by rewrite Permutation_middle. }
  by rewrite H, app_nil_r.
Qed.

Lemma sum_lengths_perm (l1 l2 : list (string * bytes)) :
  l1 ≡ₚ l2 -> sum_lengths l1 = sum_lengths l2.
Proof. induction 1; unfold sum_lengths in *; simpl in *; lia. Qed.

Lemma key_lt_asym (k1 k2 : string * string) :
  key_lt k1 k2 = true -> key_lt k2 k1 = false.
Proof.
  unfold key_lt. rewrite (String.compare_antisym (fst k2) (fst k1)),
    (String.compare_antisym (snd k2) (snd k1)).
  destruct (String.compare (fst k1) (fst k2)); simpl; try done.
  intros H. apply bool_decide_eq_true in H. rewrite H. simpl.
  destruct (String.compare (fst k2) (fst k1)); try done.
Qed.

Section SortedOutput.
Context {A : Type} (key : A -> string * string).

Lemma insert_by_key_sorted (x : A) (l : list A) :
  Sorted (key_le key) l -> Sorted (key_le key) (insert_by_key key x l).
Proof.
  induction l as [|y l IH]; simpl; intros Hs.
  - repeat constructor.
  - destruct (key_lt (key x) (key y)) eqn:E.
    + constructor; [done|]. constructor. unfold key_le. by apply key_lt_asym.
    + apply Sorted_inv in Hs as [Hs Hhd]. constructor; [by apply IH|].
      destruct l as [|z l]; simpl; [by constructor|].
      destruct (key_lt (key x) (key z)); constructor; [done|].
      by apply HdRel_inv in Hhd.
Qed.

End SortedOutput.

Lemma sorted_by_key_sorted {A} (key : A -> string * string) (l : list A) :
  Sorted (key_le key) (sorted_by_key key l).
Proof.
  unfold sorted_by_key.
  assert (H : forall acc, Sorted (key_le key) acc ->
              Sorted (key_le key) (fold_left (fun acc x => insert_by_key key x acc) l acc)).
  { induction l as [|x l IH]; intros acc Hacc; simpl; [done|].
    by apply IH, insert_by_key_sorted. }
  apply H. constructor.
Qed.

(** ** Packing and [process_images] *)

Lemma pack_pass_trace (encode : string -> option bytes) (m : Z) (l : list item) (st : pack_state) :
  let st' := pack_pass encode m l st in
  (exists added, chosen_actual st' = chosen_actual st ++ added /\
     map fst added `sublist_of` map fst l /\
     (forall p d, (p, d) ∈ added -> encode p = Some d)) /\
  (exists calls, codec_calls st' = codec_calls st ++ calls /\ calls `sublist_of` map fst l).
Proof.
  revert st. induction l as [|[p e] l IH]; intros st; cbn [pack_pass].
  - split; exists []; rewrite app_nil_r; split_and!; try done; try constructor.
    intros ? ? Hx. by apply not_elem_of_nil in Hx.
  - destruct (m <=? actual_total st).
    { split; exists []; rewrite app_nil_r; split_and!; try done; try apply sublist_nil_l.
      intros ? ? Hx. by apply not_elem_of_nil in Hx. }
    destruct (m <? actual_total st + e).
    { destruct (IH st) as [(a & Ha & Hsa & Hea) (c & Hc & Hsc)].
      split; [exists a | exists c]; split_and!; try done; simpl; by constructor. }
    destruct (encode p) as [data|] eqn:Henc.
    2:{ destruct (IH (log_call p st)) as [(a & Ha & Hsa & Hea) (c & Hc & Hsc)].
        split; [exists a | exists (p :: c)]; split_and!; try done; simpl; try by constructor.
        rewrite Hc. simpl. by rewrite <- app_assoc. }
    destruct (m <? actual_total (log_call p st) + Z.of_nat (length data)).
    { destruct (IH (log_call p st)) as [(a & Ha & Hsa & Hea) (c & Hc & Hsc)].
      split; [exists a | exists (p :: c)]; split_and!; try done; simpl; try by constructor.
      rewrite Hc. simpl. by rewrite <- app_assoc. }
    destruct (m <=? actual_total (commit p data (log_call p st))).
    { split; [exists [(p, data)] | exists [p]]; split_and!; simpl; try done.
      - constructor. apply sublist_nil_l.
      - intros p' d' Hx. apply list_elem_of_singleton in Hx. by injection Hx as -> ->.
      - constructor. apply sublist_nil_l. }
    destruct (IH (commit p data (log_call p st))) as [(a & Ha & Hsa & Hea) (c & Hc & Hsc)].
    split; [exists ((p, data) :: a) | exists (p :: c)]; split_and!; simpl; try by constructor.
    + rewrite Ha. simpl. by rewrite <- app_assoc.
    + intros p' d' Hx. apply elem_of_cons in Hx as [Hx|Hx]; [by injection Hx as -> ->|].
      by apply Hea.
    + rewrite Hc. simpl. by rewrite <- app_assoc.
Qed.

Lemma pack_both_trace (encode : string -> option bytes) (m : Z) (shuffle : Shuffle)
    (ch rem : list item) :
  let st := pack_both encode m shuffle ch rem in
  map fst (chosen_actual st) `sublist_of` map fst (ch ++ shuffle rem) /\
  codec_calls st `sublist_of` map fst (ch ++ shuffle rem) /\
  (forall p d, (p, d) ∈ chosen_actual st -> encode p = Some d).
Proof.
  unfold pack_both. rewrite map_app.
  destruct (pack_pass_trace encode m ch init_pack_state)
    as [(a & Ha & Hsa & Hea) (c & Hc & Hsc)].
  simpl in Ha, Hc.
  destruct (_ && _).
  - destruct (pack_pass_trace encode m (shuffle rem) (pack_pass encode m ch init_pack_state))
      as [(a2 & Ha2 & Hsa2 & Hea2) (c2 & Hc2 & Hsc2)].
    rewrite Ha2, Hc2, Ha, Hc, map_app. split_and!.
    + by apply sublist_app.
    + by apply sublist_app.
    + intros p d Hx. apply elem_of_app in Hx as [Hx|Hx]; [by apply Hea|by apply Hea2].
  - rewrite Ha, Hc. split_and!.
    + by apply sublist_inserts_r.
    + by apply sublist_inserts_r.
    + by apply Hea.
Qed.

Lemma pack_pass_sum (encode : string -> option bytes) (m : Z) (l : list item) (st : pack_state) :
  actual_total st = sum_lengths (chosen_actual st) ->
  actual_total (pack_pass encode m l st) = sum_lengths (chosen_actual (pack_pass encode m l st)).
Proof.
  revert st. induction l as [|[p e] l IH]; intros st Hs; cbn [pack_pass]; [done|].
  destruct (m <=? actual_total st); [done|].
  destruct (m <? actual_total st + e); [by apply IH|].
  destruct (encode p) as [data|]; [|by apply IH].
  destruct (m <? _); [by apply IH|].
  assert (Hc : actual_total (commit p data (log_call p st))
               = sum_lengths (chosen_actual (commit p data (log_call p st)))).
  { simpl. rewrite sum_lengths_snoc. simpl. lia. }
  destruct (m <=? _); [done|]. by apply IH.
Qed.

Lemma choose_partition (shuffle : Shuffle) (all_images : list string)
    (getsize : string -> option Z) (g quality : Q) :
  NoDup all_images ->
  (forall l, shuffle l ≡ₚ l) ->
  let '(ch, rem) := choose_random_subset_by_size shuffle all_images getsize g quality in
  ch ++ rem ≡ₚ map (est_item (compression_factor quality)) (scan_sizes getsize all_images).
Proof.
  intros Hnd Hsh.
  assert (Hnd_items : NoDup (map fst (scan_sizes getsize all_images)))
    by (apply scan_sizes_NoDup, Hnd).
  destruct all_images as [|a rest]; [simpl; reflexivity|].
  rewrite choose_nonempty_unfold by done. cbv zeta.
  pose proof (select_partition (compression_factor quality) (max_bytes_of g)
                (shuffle (scan_sizes getsize (a :: rest)))) as Hp.
  destruct (select_loop _ _ _ [] [] 0) as [[ch rem] t].
  rewrite Hp.
  - apply Permutation_map, Hsh.
  - rewrite (Hsh (scan_sizes getsize (a :: rest))). exact Hnd_items.
Qed.

Lemma process_images_unfold_nonempty (shuffle1 shuffle2 : Shuffle)
    (all_images : list string) (getsize : string -> option Z)
    (encode : string -> option bytes) (write_ok : string -> bool)
    (source_dir compressed_dir : string) (fs : gmap string bytes) (g quality : Q) :
  (exists ch rem, choose_random_subset_by_size shuffle1 all_images getsize g quality = (ch, rem) /\
     ((ch = [] /\ process_images shuffle1 shuffle2 all_images getsize encode write_ok
                   source_dir compressed_dir fs g quality = (init_pack_state, fs)) \/
      (let st := pack_both encode (max_bytes_of g) shuffle2 ch rem in
       let items := sorted_by_key (rel_folder_key source_dir) (chosen_actual st) in
       process_images shuffle1 shuffle2 all_images getsize encode write_ok
         source_dir compressed_dir fs g quality
       = (st, snd (write_loop write_ok source_dir compressed_dir
                     (String.length (pretty (Z.of_nat (length items)))) items 1 fs))))).
Proof.
  unfold process_images.
  destruct (choose_random_subset_by_size _ _ _ _ _) as [ch rem].
  exists ch, rem. split; [done|]. destruct ch; [by left|by right].
Qed.

(** [process_images] never overwrites or deletes a file that existed before
    the run: a name collision is resolved by a fresh [_<n>] suffix
    (lines 223-228). *)
Theorem process_images_keeps_existing_files (shuffle1 shuffle2 : Shuffle)
    (all_images : list string) (getsize : string -> option Z)
    (encode : string -> option bytes) (write_ok : string -> bool)
    (source_dir compressed_dir : string) (fs : gmap string bytes) (max_dir_size_gb quality : Q)
    (q : string) :
  is_Some (fs !! q) ->
  snd (process_images shuffle1 shuffle2 all_images getsize encode write_ok
         source_dir compressed_dir fs max_dir_size_gb quality) !! q = fs !! q.
Proof.
  intros Hq.
  destruct (process_images_unfold_nonempty shuffle1 shuffle2 all_images getsize encode write_ok
              source_dir compressed_dir fs max_dir_size_gb quality)
    as (ch & rem & _ & [[_ ->]|Hrun]); [done|].
  rewrite Hrun. cbv zeta.
  match goal with |- context [write_loop ?a ?b ?c ?d ?e ?f ?g] =>
    pose proof (write_loop_spec a b c d e f g) as Hw;
    destruct (write_loop a b c d e f g) as [c' fs'] end.
  by apply Hw.
Qed.

(** When no write fails, the run creates one new file per committed item and
    the output grows by exactly [actual_total] bytes. *)
Theorem process_images_all_writes_succeed (shuffle1 shuffle2 : Shuffle)
    (all_images : list string) (getsize : string -> option Z)
    (encode : string -> option bytes) (write_ok : string -> bool)
    (source_dir compressed_dir : string) (fs : gmap string bytes) (max_dir_size_gb quality : Q) :
  (forall p, write_ok p = true) ->
  let '(st, fs') := process_images shuffle1 shuffle2 all_images getsize encode write_ok
                      source_dir compressed_dir fs max_dir_size_gb quality in
  size fs' = (size fs + length (chosen_actual st))%nat /\
  dir_bytes fs' = dir_bytes fs + actual_total st.
Proof.
  intros Hok.
  destruct (process_images_unfold_nonempty shuffle1 shuffle2 all_images getsize encode write_ok
              source_dir compressed_dir fs max_dir_size_gb quality)
    as (ch & rem & _ & [[_ ->]|Hrun]).
  { simpl. split; [lia|lia]. }
  rewrite Hrun. cbv zeta.
  assert (Hsum : actual_total (pack_both encode (max_bytes_of max_dir_size_gb) shuffle2 ch rem)
                 = sum_lengths (chosen_actual (pack_both encode (max_bytes_of max_dir_size_gb)
                                                 shuffle2 ch rem))).
  { unfold pack_both. destruct (_ && _); apply pack_pass_sum; [|reflexivity].
    apply pack_pass_sum. reflexivity. }
  set (st := pack_both _ _ _ _ _) in *.
  set (items := sorted_by_key _ _).
  assert (Hperm : items ≡ₚ chosen_actual st) by apply sorted_by_key_perm.
  pose proof (write_loop_spec write_ok source_dir compressed_dir
                (String.length (pretty (Z.of_nat (length items)))) items 1 fs) as Hw.
  destruct (write_loop _ _ _ _ _ _ _) as [c' fs'].
  destruct Hw as (_ & Hsize & _ & _ & _ & Hall). simpl.
  destruct (Hall Hok) as [Hc Hb].
  rewrite <- (Permutation_length Hperm), Hsum, <- (sum_lengths_perm _ _ Hperm).
  split; [lia|done].
Qed.

(** With distinct input paths and a [random.shuffle] that permutes its
    argument, no image is compressed twice, none is committed twice, and only
    input images are compressed. *)
Theorem process_images_each_image_once (shuffle1 shuffle2 : Shuffle)
    (all_images : list string) (getsize : string -> option Z)
    (encode : string -> option bytes) (write_ok : string -> bool)
    (source_dir compressed_dir : string) (fs : gmap string bytes) (max_dir_size_gb quality : Q) :
  NoDup all_images ->
  (forall l, shuffle1 l ≡ₚ l) ->
  (forall l, shuffle2 l ≡ₚ l) ->
  let st := fst (process_images shuffle1 shuffle2 all_images getsize encode write_ok
                   source_dir compressed_dir fs max_dir_size_gb quality) in
  NoDup (codec_calls st) /\ NoDup (map fst (chosen_actual st)) /\
  (forall p, p ∈ codec_calls st -> p ∈ all_images).
Proof.
  intros Hnd Hsh1 Hsh2.
  destruct (process_images_unfold_nonempty shuffle1 shuffle2 all_images getsize encode write_ok
              source_dir compressed_dir fs max_dir_size_gb quality)
    as (ch & rem & Hch & [[_ ->]|Hrun]).
  { simpl. split_and!; try constructor. intros p Hp. by apply not_elem_of_nil in Hp. }
  rewrite Hrun. cbv zeta. simpl.
  pose proof (choose_partition shuffle1 all_images getsize max_dir_size_gb quality Hnd Hsh1)
    as Hpart. rewrite Hch in Hpart.
  assert (Hpaths : map fst (ch ++ shuffle2 rem) ≡ₚ map fst (scan_sizes getsize all_images)).
  { rewrite (Hsh2 rem), Hpart. by rewrite map_fst_est_item. }
  assert (HndP : NoDup (map fst (ch ++ shuffle2 rem)))
    by (rewrite Hpaths; by apply scan_sizes_NoDup).
  destruct (pack_both_trace encode (max_bytes_of max_dir_size_gb) shuffle2 ch rem)
    as (Hs1 & Hs2 & _).
  split_and!.
  - exact (sublist_NoDup _ _ HndP Hs2).
  - exact (sublist_NoDup _ _ HndP Hs1).
  - intros p Hp. apply (scan_sizes_paths getsize). rewrite <- Hpaths.
    by apply (elem_of_sublist _ _ _ Hp Hs2).
Qed.

(** ** Paths and [gather_all_images] *)

Lemma string_of_list_ascii_app (a b : list ascii) :
  String.string_of_list_ascii (a ++ b)
  = (String.string_of_list_ascii a +:+ String.string_of_list_ascii b)%string.
Proof. induction a as [|x a IH]; simpl; [done|]. by rewrite IH. Qed.

Lemma string_app_nil_r (s : string) : (s +:+ "")%string = s.
Proof.
  induction s as [|a s IH]; [done|].
  unfold String.append; fold String.append. f_equal. apply IH.
Qed.

Lemma string_app_assoc (s1 s2 s3 : string) :
  (s1 +:+ (s2 +:+ s3))%string = ((s1 +:+ s2) +:+ s3)%string.
Proof.
  induction s1 as [|a s1 IH]; [done|].
  unfold String.append; fold String.append. f_equal. apply IH.
Qed.

(** The scan of [rsplit_after] from the end of the string. *)
Lemma rsplit_after_go (c : ascii) :
  let go := fix go (rev_chars tail : list ascii) : list ascii * list ascii :=
    match rev_chars with
    | [] => ([], tail)
    | x :: xs => if Ascii.eqb x c then (rev (x :: xs), tail) else go xs (x :: tail)
    end in
  forall rc tl,
    fst (go rc tl) ++ snd (go rc tl) = rev rc ++ tl /\
    (fst (go rc tl) = [] \/ exists pre, fst (go rc tl) = pre ++ [c]).
Proof.
  intros go. induction rc as [|x xs IH]; intros tl; simpl; [by auto|].
  destruct (Ascii.eqb x c) eqn:E; simpl.
  - apply Ascii.eqb_eq in E as ->. split; [done|]. right. by exists (rev xs).
  - destruct (IH (x :: tl)) as [H1 H2]. split; [|done].
    rewrite H1, <- app_assoc. done.
Qed.

Lemma rsplit_after_app (c : ascii) (p : string) :
  (fst (rsplit_after c p) +:+ snd (rsplit_after c p))%string = p /\
  (fst (rsplit_after c p) = ""%string \/
   exists pre, String.list_ascii_of_string (fst (rsplit_after c p)) = pre ++ [c]).
Proof.
  unfold rsplit_after.
  destruct (rsplit_after_go c (rev (String.list_ascii_of_string p)) []) as [H1 H2].
  revert H1 H2.
  match goal with |- context [?G (rev (String.list_ascii_of_string p)) []] =>
    destruct (G (rev (String.list_ascii_of_string p)) []) as [h t] end.
  simpl. intros H1 H2. split.
  - rewrite <- string_of_list_ascii_app, H1, rev_involutive, app_nil_r.
    apply String.string_of_list_ascii_of_string.
  - destruct H2 as [->|[pre ->]]; [by left|right].
    exists pre. apply String.list_ascii_of_string_of_list_ascii.
Qed.

(** [os.path.splitext] loses nothing: [root + ext == p], and [ext] is empty
    or starts with a dot. *)
Theorem splitext_round_trip (p : string) :
  let '(root, ext) := splitext p in
  (root +:+ ext)%string = p /\ (ext = ""%string \/ exists t, ext = ("." +:+ t)%string).
Proof.
  unfold splitext.
  destruct (rsplit_after_app slash p) as [Hp _].
  destruct (rsplit_after slash p) as [before last]. simpl in Hp.
  destruct (rsplit_after_app dot last) as [Hl Hdot].
  destruct (rsplit_after dot last) as [h t]. simpl in Hl, Hdot.
  destruct (String.list_ascii_of_string h) as [|a hs] eqn:Eh.
  { split; [apply string_app_nil_r|by left]. }
  destruct (forallb _ _).
  { split; [apply string_app_nil_r|by left]. }
  split; [|right; by exists t].
  destruct Hdot as [->|[pre Hpre]]; [discriminate|].
  rewrite Hpre, removelast_last.
  rewrite <- Hp, <- Hl.
  rewrite <- (String.string_of_list_ascii_of_string h), Eh, Hpre, string_of_list_ascii_app.
  rewrite !string_app_assoc. done.
Qed.

Lemma rsplit_after_go_skip (c : ascii) :
  let go := fix go (rev_chars tail : list ascii) : list ascii * list ascii :=
    match rev_chars with
    | [] => ([], tail)
    | x :: xs => if Ascii.eqb x c then (rev (x :: xs), tail) else go xs (x :: tail)
    end in
  forall r more tl, c ∉ r -> go (r ++ more) tl = go more (rev r ++ tl).
Proof.
  intros go. induction r as [|x r IH]; intros more tl Hc; simpl; [done|].
  apply not_elem_of_cons in Hc as [Hx Hc].
  destruct (Ascii.eqb x c) eqn:E; [by apply Ascii.eqb_eq in E|].
  rewrite IH by done. by rewrite <- app_assoc.
Qed.

Lemma not_elem_of_rev {A} (x : A) (l : list A) : x ∉ l -> x ∉ rev l.
Proof. rewrite !list_elem_of_In, <- in_rev. done. Qed.

(** Without [c], [rsplit_after c p] is [("", p)]. *)
Lemma rsplit_after_absent (c : ascii) (l : list ascii) :
  c ∉ l -> rsplit_after c (String.string_of_list_ascii l) = (""%string, String.string_of_list_ascii l).
Proof.
  intros Hc. unfold rsplit_after.
  pose proof (rsplit_after_go_skip c) as G. cbv zeta in G.
  rewrite String.list_ascii_of_string_of_list_ascii, <- (app_nil_r (rev l)), G.
  - by rewrite rev_involutive, app_nil_r.
  - by apply not_elem_of_rev.
Qed.

(** The last [c] splits: [rsplit_after c (l ++ c :: rest) = (l ++ [c], rest)]. *)
Lemma rsplit_after_last (c : ascii) (l rest : list ascii) :
  c ∉ rest ->
  rsplit_after c (String.string_of_list_ascii (l ++ c :: rest))
  = (String.string_of_list_ascii (l ++ [c]), String.string_of_list_ascii rest).
Proof.
  intros Hc. unfold rsplit_after.
  pose proof (rsplit_after_go_skip c) as G. cbv zeta in G.
  rewrite String.list_ascii_of_string_of_list_ascii, rev_app_distr. simpl.
  rewrite <- app_assoc, G by (by apply not_elem_of_rev).
  simpl. rewrite Ascii.eqb_refl, !rev_involutive, app_nil_r.
  done.
Qed.

(** A name whose dots are all leading (no extension): ["photo"], [".jpg"], ["..png"]. *)
(** A file name whose dots are all leading ([photo], [.jpg], [..png]) has no
    extension for [os.path.splitext], so [gather_all_images] skips it. *)
Theorem leading_dot_names_not_gathered (k : nat) (rest : list ascii) :
  dot ∉ rest -> slash ∉ rest ->
  is_image_name (String.string_of_list_ascii (repeat dot k ++ rest)) = false.
Proof.
  intros Hd Hs. unfold is_image_name, splitext.
  rewrite rsplit_after_absent.
  2:{ rewrite elem_of_app. intros [Hr|Hr]; [|done].
      apply list_elem_of_In, repeat_spec in Hr. discriminate. }
  destruct k as [|k].
  - simpl. rewrite rsplit_after_absent by done. simpl.
    first [reflexivity | by apply bool_decide_eq_false].
  - assert (E1 : repeat dot (S k) ++ rest = repeat dot k ++ dot :: rest).
    { change (repeat dot (S k)) with (dot :: repeat dot k).
      rewrite (repeat_cons k dot), <- app_assoc. reflexivity. }
    rewrite E1.
    rewrite rsplit_after_last by done.
    rewrite String.list_ascii_of_string_of_list_ascii.
    destruct (repeat dot k ++ [dot]) as [|a hs] eqn:E.
    { by apply app_eq_nil in E as [_ ?]. }
    assert (Hall : forallb (fun c => Ascii.eqb c dot) (a :: hs) = true).
    { rewrite <- E. apply forallb_forall. intros x Hx.
      apply in_app_or in Hx as [Hx|[<-|[]]]; [apply repeat_spec in Hx as ->|];
        apply Ascii.eqb_refl. }
    rewrite Hall. simpl. first [reflexivity | by apply bool_decide_eq_false].
Qed.

Lemma gather_files_spec (root : string) (files : list string) (p : string) :
  p ∈ gather_files root files <->
  exists name, name ∈ files /\ is_image_name name = true /\ p = path_join root name.
Proof.
  induction files as [|name files IH]; simpl.
  - split; [intros H; by apply not_elem_of_nil in H|].
    intros (n & Hn & _). by apply not_elem_of_nil in Hn.
  - destruct (is_image_name name) eqn:E.
    + rewrite elem_of_cons, IH. split.
      * intros [->|(n & Hn & Hi & ->)]; [exists name; split_and!; try done; left|].
        exists n. split_and!; try done. by right.
      * intros (n & Hn & Hi & ->). apply elem_of_cons in Hn as [->|Hn]; [by left|].
        right. by exists n.
    + rewrite IH. split.
      * intros (n & Hn & Hi & ->). exists n. split_and!; try done. by right.
      * intros (n & Hn & Hi & ->). apply elem_of_cons in Hn as [->|Hn]; [congruence|].
        by exists n.
Qed.

(** ** The JPEG quality *)


(** The rounding of line 52 is Python's [round]: the result is at distance at
    most 1/2 from its argument, and even on a tie. *)
Theorem py_round_nearest_even (x : Q) :
  (-(1#2) <= x - inject_Z (py_round x) <= 1#2)%Q /\
  ((x - inject_Z (py_round x) == 1#2)%Q \/ (x - inject_Z (py_round x) == -(1#2))%Q ->
   Z.even (py_round x) = true).
Proof.
  pose proof (Qfloor_le x) as Hle. pose proof (Qlt_floor x) as Hlt.
  rewrite inject_Z_plus in Hlt. change (inject_Z 1) with 1%Q in Hlt.
  destruct (py_round_cases x) as [[Hr ->]|[[Hr ->]|[Hr ->]]];
    set (f := Qfloor x) in *.
  - split; [lra|]. intros [H|H]; lra.
  - rewrite inject_Z_plus. change (inject_Z 1) with 1%Q. split; [lra|]. intros [H|H]; lra.
  - destruct (Z.even f) eqn:Ev.
    + split; [lra|]. done.
    + rewrite inject_Z_plus. change (inject_Z 1) with 1%Q. split; [lra|]. intros _.
      rewrite Z.even_add, Ev. done.
Qed.

(** For an integer quality (run.py passes [config.getint]), the JPEG quality
    is that integer clamped to [1, 95]. *)
Theorem quality_int_of_int (n : Z) :
  quality_int (inject_Z n) = Z.max 1 (Z.min 95 n).
Proof.
  unfold quality_int. f_equal. f_equal.
  destruct (py_round_cases (inject_Z n)) as [[Hr ->]|[[Hr _]|[Hr _]]];
    rewrite Qfloor_Z in *; [done| |]; exfalso.
  - assert (inject_Z n - inject_Z n == 0)%Q by ring. lra.
  - assert (inject_Z n - inject_Z n == 0)%Q by ring. lra.
Qed.

(** ** The location of [settings.ini] *)

(** run.py reads the first existing one of [base_dir/settings.ini],
    [cwd/settings.ini] and, when [_MEIPASS] is set and not empty,
    [_MEIPASS/settings.ini]; it exits when none exists. *)
Theorem find_config_path_first_existing (path_exists : string -> bool)
    (base_dir cwd : string) (meipass : option string) :
  find_config_path path_exists base_dir cwd meipass
  = find path_exists (config_candidates base_dir cwd meipass).
Proof.
  unfold find_config_path, config_candidates. simpl.
  destruct (path_exists (path_join base_dir "settings.ini")) eqn:Eb; [by rewrite Eb|].
  destruct (path_exists (path_join cwd "settings.ini")) eqn:Ec; [by rewrite Ec|].
  destruct meipass as [m|]; simpl; [|by rewrite Eb].
  case_bool_decide; simpl; [by rewrite Eb|].
  destruct (path_exists (path_join m "settings.ini")) eqn:Em; [by rewrite Em|by rewrite Eb].
Qed.

(** ** The selector and the codec calls *)

Lemma scan_sizes_elem (getsize : string -> option Z) (paths : list string) (p : string) (s : Z) :
  (p, s) ∈ scan_sizes getsize paths <-> p ∈ paths /\ getsize p = Some s.
Proof.
  induction paths as [|q paths IH]; simpl.
  - split; [intros H; by apply not_elem_of_nil in H|]. intros [H _]. by apply not_elem_of_nil in H.
  - rewrite elem_of_cons. destruct (getsize q) as [s0|] eqn:Eq.
    + rewrite elem_of_cons, IH. split.
      * intros [Hx|[Hp Hg]]; [injection Hx as -> ->; auto|auto].
      * intros [[->|Hp] Hg]; [left; congruence|by right].
    + rewrite IH. split; [intros [Hp Hg]; auto|].
      intros [[->|Hp] Hg]; [congruence|auto].
Qed.

Lemma pack_pass_total_mono (encode : string -> option bytes) (m : Z) (l : list item) (st : pack_state) :
  actual_total st <= actual_total (pack_pass encode m l st).
Proof.
  revert st. induction l as [|[p e] l IH]; intros st; cbn [pack_pass]; [lia|].
  destruct (m <=? actual_total st); [lia|].
  destruct (m <? actual_total st + e); [apply IH|].
  destruct (encode p) as [data|]; [|etransitivity; [|apply IH]; simpl; lia].
  destruct (m <? _); [etransitivity; [|apply IH]; simpl; lia|].
  destruct (m <=? _); [simpl; lia|].
  etransitivity; [|apply IH]. simpl. lia.
Qed.

Lemma pack_pass_calls_fit (encode : string -> option bytes) (m : Z) (l : list item) (st : pack_state) :
  0 <= actual_total st ->
  forall p, p ∈ codec_calls (pack_pass encode m l st) ->
  p ∈ codec_calls st \/ exists e, (p, e) ∈ l /\ e <= m.
Proof.
  revert st. induction l as [|[q e] l IH]; intros st Hnn p; cbn [pack_pass]; [auto|].
  destruct (m <=? actual_total st); [auto|].
  destruct (m <? actual_total st + e) eqn:Efit.
  { intros Hp. destruct (IH st Hnn p Hp) as [H|(e' & He' & Hle)]; [by left|].
    right. exists e'. split; [by apply elem_of_cons; right|done]. }
  apply Z.ltb_ge in Efit.
  assert (Hcall : forall st', codec_calls st' = codec_calls st ++ [q] ->
                  p ∈ codec_calls st' -> p ∈ codec_calls st \/ exists e0, (p, e0) ∈ (q, e) :: l /\ e0 <= m).
  { intros st' -> Hp. apply elem_of_app in Hp as [Hp|Hp]; [by left|].
    apply list_elem_of_singleton in Hp as ->. right. exists e.
    split; [apply elem_of_cons; by left|lia]. }
  assert (Hrest : forall st', 0 <= actual_total st' -> codec_calls st' = codec_calls st ++ [q] ->
                  p ∈ codec_calls (pack_pass encode m l st') ->
                  p ∈ codec_calls st \/ exists e0, (p, e0) ∈ (q, e) :: l /\ e0 <= m).
  { intros st' Hnn' Hc Hp. destruct (IH st' Hnn' p Hp) as [H|(e' & He' & Hle)]; [exact (Hcall st' Hc H)|].
    right. exists e'. split; [by apply elem_of_cons; right|done]. }
  destruct (encode q) as [data|].
  2:{ apply (Hrest (log_call q st)); done. }
  destruct (m <? _); [apply (Hrest (log_call q st)); done|].
  destruct (m <=? _); [apply (Hcall (commit q data (log_call q st))); done|].
  apply (Hrest (commit q data (log_call q st))); simpl; [lia|done].
Qed.

Lemma rstrip_slash_last (l : list ascii) (x : ascii) :
  x <> slash ->
  rstrip_slash (String.string_of_list_ascii (l ++ [x; slash])) = String.string_of_list_ascii (l ++ [x]).
Proof.
  intros Hx. unfold rstrip_slash.
  rewrite String.list_ascii_of_string_of_list_ascii, rev_app_distr. simpl.
  assert (E : Ascii.eqb x slash = false) by (apply Ascii.eqb_neq, Hx).
  rewrite E. simpl. rewrite rev_involutive. done.
Qed.

(** With distinct input paths and a permuting shuffle, [chosen ++ remaining]
    holds exactly the input images whose size could be read, each with the
    estimate of its size: unreadable files are dropped and no other is lost. *)
Theorem selector_covers_readable_images (shuffle : Shuffle) (all_images : list string)
    (getsize : string -> option Z) (max_dir_size_gb quality : Q) :
  NoDup all_images ->
  (forall l, shuffle l ≡ₚ l) ->
  let '(chosen, remaining) :=
    choose_random_subset_by_size shuffle all_images getsize max_dir_size_gb quality in
  forall p e, (p, e) ∈ chosen ++ remaining <->
    p ∈ all_images /\
    exists size, getsize p = Some size /\ e = estimate (compression_factor quality) size.
Proof.
  intros Hnd Hsh.
  pose proof (choose_partition shuffle all_images getsize max_dir_size_gb quality Hnd Hsh) as Hp.
  destruct (choose_random_subset_by_size _ _ _ _ _) as [ch rem].
  intros p e. rewrite Hp, list_elem_of_In, in_map_iff. split.
  - intros [[q s] [Hx Hin]]. unfold est_item in Hx. simpl in Hx. injection Hx as <- <-.
    apply list_elem_of_In, scan_sizes_elem in Hin as [Hin Hg].
    split; [done|]. by exists s.
  - intros [Hin (s & Hg & ->)]. exists (p, s). split; [done|].
    apply list_elem_of_In, scan_sizes_elem. done.
Qed.

(** [compress_image_to_bytes] is called only on images of
    [chosen ++ remaining] whose estimated size fits in the whole budget. *)
Theorem process_images_codec_only_on_fitting_estimates (shuffle1 shuffle2 : Shuffle)
    (all_images : list string) (getsize : string -> option Z)
    (encode : string -> option bytes) (write_ok : string -> bool)
    (source_dir compressed_dir : string) (fs : gmap string bytes) (max_dir_size_gb quality : Q) :
  (forall l, shuffle2 l ≡ₚ l) ->
  let '(chosen, remaining) :=
    choose_random_subset_by_size shuffle1 all_images getsize max_dir_size_gb quality in
  forall p, p ∈ codec_calls (fst (process_images shuffle1 shuffle2 all_images getsize encode
                                    write_ok source_dir compressed_dir fs max_dir_size_gb quality)) ->
  exists e, (p, e) ∈ chosen ++ remaining /\ e <= max_bytes_of max_dir_size_gb.
Proof.
  intros Hsh2.
  destruct (process_images_unfold_nonempty shuffle1 shuffle2 all_images getsize encode write_ok
              source_dir compressed_dir fs max_dir_size_gb quality)
    as (ch & rem & Hch & [[_ ->]|Hrun]); rewrite Hch.
  { simpl. intros p Hp. by apply not_elem_of_nil in Hp. }
  rewrite Hrun. simpl. intros p Hp.
  set (m := max_bytes_of max_dir_size_gb) in *.
  unfold pack_both in Hp.
  assert (HA : forall p, p ∈ codec_calls (pack_pass encode m ch init_pack_state) ->
               exists e, (p, e) ∈ ch ++ rem /\ e <= m).
  { intros q Hq. destruct (pack_pass_calls_fit encode m ch init_pack_state ltac:(simpl; lia) q Hq)
      as [Hq'|(e & He & Hle)]; [by apply not_elem_of_nil in Hq'|].
    exists e. split; [by apply elem_of_app; left|done]. }
  destruct (_ && _); [|by apply HA].
  assert (Hnn : 0 <= actual_total (pack_pass encode m ch init_pack_state)).
  { pose proof (pack_pass_total_mono encode m ch init_pack_state). simpl in *. lia. }
  destruct (pack_pass_calls_fit encode m (shuffle2 rem) _ Hnn p Hp) as [Hq|(e & He & Hle)];
    [by apply HA|].
  exists e. split; [|done]. apply elem_of_app. right. by rewrite <- (Hsh2 rem).
Qed.

(** ** Output names *)

Lemma string_length_of_list_ascii (l : list ascii) :
  String.length (String.string_of_list_ascii l) = length l.
Proof. induction l as [|a l IH]; simpl; [done|]. by rewrite IH. Qed.

Lemma prefix_slash_false (l : list ascii) :
  slash ∉ l -> String.prefix "/" (String.string_of_list_ascii l) = false.
Proof.
  destruct l as [|a l]; [done|]. intros Hn.
  cbn [String.string_of_list_ascii String.prefix].
  destruct (Ascii.ascii_dec "/" a) as [<-|]; [|done].
  exfalso. apply Hn. apply elem_of_cons. by left.
Qed.

(** An image directly under [source_dir] (no trailing separator) gets the
    name [<count>_root_<name>]. *)
(** An image directly in [source_dir] (which does not end in a separator) is
    written under the name [<count>_root_<name>] (lines 216-220). *)
Theorem out_name_top_level_image (l : list ascii) (x : ascii) (name : list ascii)
    (pad : nat) (count : Z) :
  x <> slash -> slash ∉ name ->
  let source_dir := String.string_of_list_ascii (l ++ [x]) in
  out_name_of source_dir pad count (path_join source_dir (String.string_of_list_ascii name))
  = (zero_pad pad count +:+ "_root_" +:+ String.string_of_list_ascii name)%string.
Proof.
  intros Hx Hn source_dir.
  assert (Hjoin : path_join source_dir (String.string_of_list_ascii name)
                  = String.string_of_list_ascii (l ++ x :: slash :: name)).
  { unfold path_join. rewrite prefix_slash_false by done.
    assert (Hne : bool_decide (source_dir = ""%string) = false).
    { apply bool_decide_eq_false. unfold source_dir. intros H.
      apply (f_equal String.length) in H. rewrite string_length_of_list_ascii, length_app in H.
      simpl in H. lia. }
    assert (Hlast : bool_decide (snd (rsplit_after slash source_dir) = ""%string) = false).
    { apply bool_decide_eq_false. intros H.
      destruct (rsplit_after_app slash source_dir) as [Happ [Hf|[pre Hpre]]];
        rewrite H, string_app_nil_r in Happ; rewrite Happ in *.
      - apply (f_equal String.length) in Hf. unfold source_dir in Hf.
        rewrite string_length_of_list_ascii, length_app in Hf. simpl in Hf. lia.
      - unfold source_dir in Hpre. rewrite String.list_ascii_of_string_of_list_ascii in Hpre.
        apply app_inj_tail in Hpre as [_ ->]. done. }
    rewrite Hne, Hlast. simpl. unfold source_dir.
    replace (l ++ x :: slash :: name) with ((l ++ [x]) ++ [slash] ++ name)
      by (by rewrite <- app_assoc).
    rewrite !string_of_list_ascii_app. reflexivity. }
  rewrite Hjoin. unfold out_name_of, rel_folder_rel, basename, dirname.
  assert (Hsplit : rsplit_after slash (String.string_of_list_ascii (l ++ x :: slash :: name))
                   = (String.string_of_list_ascii (l ++ [x; slash]), String.string_of_list_ascii name)).
  { replace (l ++ x :: slash :: name) with ((l ++ [x]) ++ slash :: name)
      by (by rewrite <- app_assoc).
    rewrite rsplit_after_last by done. by rewrite <- app_assoc. }
  rewrite Hsplit. simpl. rewrite rstrip_slash_last by done.
  fold source_dir.
  assert (Hne : bool_decide (source_dir = ""%string) = false).
  { apply bool_decide_eq_false. unfold source_dir. intros H.
    apply (f_equal String.length) in H. rewrite string_length_of_list_ascii, length_app in H.
    simpl in H. lia. }
  rewrite Hne. unfold relpath_under.
  rewrite (bool_decide_eq_true_2 (source_dir = source_dir)) by done.
  rewrite (bool_decide_eq_true_2 ("."%string = "."%string)) by done.
  rewrite (bool_decide_eq_true_2 (""%string = ""%string)) by done.
  reflexivity.
Qed.

(** ** The order of [chosen_sorted] *)

(** [chosen_sorted] (line 209) is a permutation of its input, ordered by the
    key: no item comes before one with a smaller key. *)
Theorem sorted_by_key_sorted_permutation {A} (key : A -> string * string) (l : list A) :
  sorted_by_key key l ≡ₚ l /\ Sorted (key_le key) (sorted_by_key key l).
Proof. split; [apply sorted_by_key_perm|apply sorted_by_key_sorted]. Qed.

(** ** Concrete instances of the properties above *)

Lemma process_images_keeps_existing_files_witness :
  let fs := <[ "/out/compressed/1_root_a.jpg"%string := [Byte.x01] ]> (∅ : gmap string bytes) in
  is_Some (fs !! "/out/compressed/1_root_a.jpg"%string) /\
  snd (process_images id id ["/src/a.jpg"]%string (fun _ => Some 4000)
         (fun _ => Some [Byte.x02]) (fun _ => true) "/src" "/out/compressed" fs
         (1 # 1048576) 75) !! "/out/compressed/1_root_a.jpg"%string
  = fs !! "/out/compressed/1_root_a.jpg"%string.
Proof.
  intros fs. assert (H : is_Some (fs !! "/out/compressed/1_root_a.jpg"%string))
    by (eexists; reflexivity).
  split; [exact H|]. exact (process_images_keeps_existing_files _ _ _ _ _ _ _ _ _ _ _ _ H).
Defined.

Lemma process_images_all_writes_succeed_witness :
  (forall p : string, (fun _ => true) p = true) /\
  let '(st, fs') := process_images id id ["a.jpg"; "b.jpg"]%string
                      (fun _ => Some 4000) (fun _ => Some (repeat Byte.x00 300)) (fun _ => true)
                      "/src" "/out/compressed" ∅ (1 # 1048576) 75 in
  size fs' = (size (∅ : gmap string bytes) + length (chosen_actual st))%nat /\
  dir_bytes fs' = dir_bytes ∅ + actual_total st.
Proof.
  assert (H : forall p : string, (fun _ => true) p = true) by reflexivity.
  split; [exact H|]. exact (process_images_all_writes_succeed id id ["a.jpg"; "b.jpg"]%string
           (fun _ => Some 4000) (fun _ => Some (repeat Byte.x00 300)) (fun _ => true)
           "/src" "/out/compressed" ∅ (1 # 1048576) 75 H).
Defined.

Lemma process_images_each_image_once_witness :
  NoDup ["a.jpg"; "b.jpg"]%string /\ (forall l : list item, id l ≡ₚ l) /\
  let st := fst (process_images id id ["a.jpg"; "b.jpg"]%string
                   (fun _ => Some 4000) (fun _ => Some (repeat Byte.x00 300)) (fun _ => true)
                   "/src" "/out/compressed" ∅ (1 # 1048576) 75) in
  NoDup (codec_calls st) /\ NoDup (map fst (chosen_actual st)) /\
  (forall p, p ∈ codec_calls st -> p ∈ ["a.jpg"; "b.jpg"]%string).
Proof.
  assert (Hnd : NoDup ["a.jpg"; "b.jpg"]%string) by (repeat constructor; set_solver).
  assert (Hid : forall l : list item, id l ≡ₚ l) by (intros l; reflexivity).
  split; [exact Hnd|]. split; [exact Hid|].
  exact (process_images_each_image_once id id ["a.jpg"; "b.jpg"]%string
           (fun _ => Some 4000) (fun _ => Some (repeat Byte.x00 300)) (fun _ => true)
           "/src" "/out/compressed" ∅ (1 # 1048576) 75 Hnd Hid Hid).
Defined.

Lemma leading_dot_names_not_gathered_witness :
  (dot ∉ ["j"; "p"; "g"]%char) /\ (slash ∉ ["j"; "p"; "g"]%char) /\
  is_image_name (String.string_of_list_ascii (repeat dot 1 ++ ["j"; "p"; "g"]%char)) = false.
Proof.
  assert (Hd : dot ∉ ["j"; "p"; "g"]%char) by (apply (bool_decide_unpack _); vm_compute; reflexivity).
  assert (Hs : slash ∉ ["j"; "p"; "g"]%char) by (apply (bool_decide_unpack _); vm_compute; reflexivity).
  split; [exact Hd|]. split; [exact Hs|]. exact (leading_dot_names_not_gathered 1 _ Hd Hs).
Defined.

Lemma selector_covers_readable_images_witness :
  NoDup ["a.jpg"; "b.jpg"; "c.jpg"]%string /\ (forall l : list item, id l ≡ₚ l) /\
  let '(chosen, remaining) :=
    choose_random_subset_by_size id ["a.jpg"; "b.jpg"; "c.jpg"]%string
      (fun p => if bool_decide (p = "b.jpg"%string) then None else Some 4000) (1 # 1048576) 75 in
  forall p e, (p, e) ∈ chosen ++ remaining <->
    p ∈ ["a.jpg"; "b.jpg"; "c.jpg"]%string /\
    exists size, (if bool_decide (p = "b.jpg"%string) then None else Some 4000) = Some size /\
                 e = estimate (compression_factor 75) size.
Proof.
  assert (Hnd : NoDup ["a.jpg"; "b.jpg"; "c.jpg"]%string) by (repeat constructor; set_solver).
  assert (Hid : forall l : list item, id l ≡ₚ l) by (intros l; reflexivity).
  split; [exact Hnd|]. split; [exact Hid|].
  exact (selector_covers_readable_images id ["a.jpg"; "b.jpg"; "c.jpg"]%string
           (fun p => if bool_decide (p = "b.jpg"%string) then None else Some 4000)
           (1 # 1048576) 75 Hnd Hid).
Defined.

Lemma process_images_codec_only_on_fitting_estimates_witness :
  (forall l : list item, id l ≡ₚ l) /\
  let '(chosen, remaining) :=
    choose_random_subset_by_size id ["a.jpg"; "b.jpg"]%string (fun _ => Some 4000) (1 # 1048576) 75 in
  forall p, p ∈ codec_calls (fst (process_images id id ["a.jpg"; "b.jpg"]%string
                                    (fun _ => Some 4000) (fun _ => Some (repeat Byte.x00 300))
                                    (fun _ => true) "/src" "/out/compressed" ∅ (1 # 1048576) 75)) ->
  exists e, (p, e) ∈ chosen ++ remaining /\ e <= max_bytes_of (1 # 1048576).
Proof.
  assert (Hid : forall l : list item, id l ≡ₚ l) by (intros l; reflexivity).
  split; [exact Hid|].
  exact (process_images_codec_only_on_fitting_estimates id id ["a.jpg"; "b.jpg"]%string
           (fun _ => Some 4000) (fun _ => Some (repeat Byte.x00 300)) (fun _ => true)
           "/src" "/out/compressed" ∅ (1 # 1048576) 75 Hid).
Defined.

Lemma out_name_top_level_image_witness :
  "c"%char <> slash /\ (slash ∉ ["a"; "."; "j"; "p"; "g"]%char) /\
  out_name_of "/src" 2 7 (path_join "/src" "a.jpg") = "07_root_a.jpg"%string.
Proof.
  assert (Hx : "c"%char <> slash) by discriminate.
  assert (Hn : slash ∉ ["a"; "."; "j"; "p"; "g"]%char)
    by (apply (bool_decide_unpack _); vm_compute; reflexivity).
  split; [exact Hx|]. split; [exact Hn|].
  exact (out_name_top_level_image ["/"; "s"; "r"]%char "c"%char ["a"; "."; "j"; "p"; "g"]%char 2 7 Hx Hn).
Defined.

Lemma py_round_nearest_even_witness :
  py_round (5 # 2) = 2 /\ py_round (7 # 2) = 4 /\
  (-(1#2) <= (5 # 2) - inject_Z (py_round (5 # 2)) <= 1#2)%Q /\
  (((5 # 2) - inject_Z (py_round (5 # 2)) == 1#2)%Q \/
   ((5 # 2) - inject_Z (py_round (5 # 2)) == -(1#2))%Q ->
   Z.even (py_round (5 # 2)) = true).
Proof.
  split; [reflexivity|]. split; [reflexivity|]. exact (py_round_nearest_even (5 # 2)).
Defined.
